(** * peertube-supernovao: a shallow embedding of the job orchestration core

    The JavaScript sources are [lib/health.js], [lib/bridge.js]
    (src/unnamed/part_003), [lib/pool-manager.js], [lib/result-assembler.js],
    [lib/runner-client.js] and [lib/job-translator.js]
    (src/unnamed/part_001).

    Asynchronous code is modelled in a small state/exception monad that also
    records a snapshot of the shared state at every [await], i.e. at every
    point where another task of the single cooperative event loop may run
    and observe that state.  External services (the PeerTube REST API, the
    encoding substrate, the file system outside the temp directories) are
    oracles deciding whether a given step resolves or rejects. *)

From stdpp Require Import base gmap strings list.
From Stdlib Require Import Sorting.Sorted Strings.Ascii QArith Qround Qpower Lqa.
Close Scope Q_scope.

(* ------------------------------------------------------------------ *)
(** ** An async state/exception monad *)

Module Async.

(** An awaited promise either resolves with a value or rejects with an
    [Error] message. *)
Inductive result (A : Type) : Type :=
| Ok (a : A)
| Throw (msg : string).
Arguments Ok {A} a.
Arguments Throw {A} msg.

(** A computation threads the shared state [S] and returns the snapshots
    taken at its suspension points, in order. *)
Definition M (S A : Type) : Type := S -> result A * S * list S.

#[global] Instance M_ret S : MRet (M S) := fun A a s => (Ok a, s, []).

#[global] Instance M_bind S : MBind (M S) := fun A B k m s =>
  match m s with
  | (Ok a, s1, t1) => let '(r, s2, t2) := k a s1 in (r, s2, t1 ++ t2)
  | (Throw e, s1, t1) => (Throw e, s1, t1)
  end.

Definition throw {S A} (e : string) : M S A := fun s => (Throw e, s, []).

Definition modify {S} (f : S -> S) : M S unit := fun s => (Ok tt, f s, []).

Definition gets {S A} (f : S -> A) : M S A := fun s => (Ok (f s), s, []).

(** [await]: the task suspends; other tasks may observe the state. *)
Definition snap {S} : M S unit := fun s => (Ok tt, s, [s]).

(** [try { m } catch (e) { h(e) }] *)
Definition try_catch {S A} (m : M S A) (h : string -> M S A) : M S A := fun s =>
  match m s with
  | (Throw e, s1, t1) => let '(r, s2, t2) := h e s1 in (r, s2, t1 ++ t2)
  | res => res
  end.

(** [try { m } finally { f }]: a rejection of [f] overrides. *)
Definition try_finally {S A} (m : M S A) (f : M S unit) : M S A := fun s =>
  let '(r1, s1, t1) := m s in
  let '(r2, s2, t2) := f s1 in
  (match r2 with Ok _ => r1 | Throw e => Throw e end, s2, t1 ++ t2).

(** [p.catch(() => {})]: swallow any rejection. *)
Definition swallow {S} (m : M S unit) : M S unit := try_catch m (fun _ => mret tt).

(** [await asyncFn(...)]: run the call, then suspend once more. *)
Definition await {S A} (m : M S A) : M S A := x ← m; snap;; mret x.

End Async.

Import Async.

(* ------------------------------------------------------------------ *)
(** ** [JobWatchdog] (lib/health.js) with the Node.js timer queue *)

Module Watchdog.

(** A pending [setTimeout]: its handle, its due time and what it calls. *)
Record timer := mkTimer {
  t_handle : nat;
  t_due : nat;
  t_job : string;   (* the [jobUUID] the closure was created for *)
  t_cb : nat        (* the [onTimeout] callback, by identity *)
}.

(** A value of [this.jobs]: [{ timer, onTimeout, startTime }]. *)
Record entry := mkEntry { timer_of : nat; onTimeout : nat; startTime : nat }.

Record state := mkState {
  now : nat;                    (* [Date.now()] *)
  next_handle : nat;
  pending : list timer;         (* the event loop's timers *)
  jobs : gmap string entry;     (* [this.jobs] *)
  timeoutMs : nat;              (* [this.timeoutMs] *)
  fired : list (nat * string)   (* calls [onTimeout(jobUUID)] made so far *)
}.

(** [new JobWatchdog(timeoutMs)]: [timeoutMs || 3600000]. *)
Definition create (ms : nat) : state :=
  mkState 0 0 [] ∅ (if ms =? 0 then 3600000 else ms) [].

(** Node's timer delay: one outside [1 .. 2^31 - 1] (TIMEOUT_MAX) is set
    to 1 ms. *)
Definition delay (ms : nat) : nat :=
  if (1 <=? ms) && (Z.of_nat ms <=? 2147483647)%Z then ms else 1.

(** [setTimeout(cb, ms)] returns a fresh handle. *)
Definition setTimeout (job : string) (cb ms : nat) (s : state) : nat * state :=
  (next_handle s,
   mkState (now s) (S (next_handle s))
     (pending s ++ [mkTimer (next_handle s) (now s + delay ms) job cb])
     (jobs s) (timeoutMs s) (fired s)).

Definition clearTimeout (h : nat) (s : state) : state :=
  mkState (now s) (next_handle s)
    (filter (fun t => t_handle t <> h) (pending s))
    (jobs s) (timeoutMs s) (fired s).

Definition set_jobs (m : gmap string entry) (s : state) : state :=
  mkState (now s) (next_handle s) (pending s) m (timeoutMs s) (fired s).

(** [watch(jobUUID, onTimeout)] *)
Definition watch (jobUUID : string) (cb : nat) (s : state) : state :=
  let '(h, s1) := setTimeout jobUUID cb (timeoutMs s) s in
  set_jobs (<[jobUUID := mkEntry h cb (now s1)]> (jobs s1)) s1.

(** [kick(jobUUID)]: the entry object is mutated in place. *)
Definition kick (jobUUID : string) (s : state) : state :=
  match jobs s !! jobUUID with
  | None => s
  | Some e =>
      let s1 := clearTimeout (timer_of e) s in
      let '(h, s2) := setTimeout jobUUID (onTimeout e) (timeoutMs s1) s1 in
      set_jobs (<[jobUUID := mkEntry h (onTimeout e) (startTime e)]> (jobs s2)) s2
  end.

(** [clear(jobUUID)] *)
Definition clear (jobUUID : string) (s : state) : state :=
  match jobs s !! jobUUID with
  | None => s
  | Some e => let s1 := clearTimeout (timer_of e) s in set_jobs (delete jobUUID (jobs s1)) s1
  end.

(** [clearAll()] *)
Definition clearAll (s : state) : state :=
  set_jobs ∅ (map_fold (fun _ e acc => clearTimeout (timer_of e) acc) s (jobs s)).

(** The event loop advances the clock by [d]: every timer now due runs
    its callback once and leaves the queue. *)
Definition advance (d : nat) (s : state) : state :=
  let t := now s + d in
  let due := filter (fun tm => t_due tm <= t) (pending s) in
  mkState t (next_handle s)
    (filter (fun tm => ~ t_due tm <= t) (pending s))
    (jobs s) (timeoutMs s)
    (fired s ++ map (fun tm => (t_cb tm, t_job tm)) due).

(** The number of live timers whose closure belongs to [jobUUID]. *)
Definition timers_for (jobUUID : string) (s : state) : nat :=
  length (filter (fun tm => t_job tm = jobUUID) (pending s)).

(** The number of [onTimeout] calls made so far for [jobUUID]. *)
Definition fired_for (jobUUID : string) (s : state) : nat :=
  length (filter (fun p => p.2 = jobUUID) (fired s)).

(** [elapsed(jobUUID)]: [-1] without an entry, else [Date.now() - entry.startTime]. *)
Definition elapsed (jobUUID : string) (s : state) : Z :=
  match jobs s !! jobUUID with
  | None => (-1)%Z
  | Some e => (Z.of_nat (now s) - Z.of_nat (startTime e))%Z
  end.

(** The live timers whose closure belongs to [jobUUID]. *)
Definition timers_of (jobUUID : string) (s : state) : list timer :=
  filter (fun tm => t_job tm = jobUUID) (pending s).

(** [jobUUID] has an entry, and its only live timer is [tm], the one the
    entry holds, calling the entry's [onTimeout]. *)
Definition armed (jobUUID : string) (s : state) (tm : timer) : Prop :=
  exists e, jobs s !! jobUUID = Some e /\ timers_of jobUUID s = [tm]
            /\ t_handle tm = timer_of e /\ t_cb tm = onTimeout e.

End Watchdog.

(* ------------------------------------------------------------------ *)
(** ** [HealthMonitor] (lib/health.js) *)

Module Health.

Record state := mkState {
  consecutiveFailures : nat;
  healthy : bool;
  maxConsecutiveFailures : nat;
  unhealthy_events : list nat   (* [emit('unhealthy', {consecutiveFailures})] *)
}.

(** The constructor: [(config && config.maxConsecutiveFailures) || 5]. *)
Definition create (maxCfg : nat) : state :=
  mkState 0 true (if maxCfg =? 0 then 5 else maxCfg) [].

Definition isHealthy (s : state) : bool := healthy s.

(** [_recordFailure(reason)] *)
Definition recordFailure (s : state) : state :=
  let n := S (consecutiveFailures s) in
  if maxConsecutiveFailures s <=? n
  then mkState n false (maxConsecutiveFailures s) (unhealthy_events s ++ [n])
  else mkState n (healthy s) (maxConsecutiveFailures s) (unhealthy_events s).

(** One [_check()] cycle; [ok] is whether [fetch] resolved with [res.ok].
    (A rejected [fetch] and a non-ok response both go to [_recordFailure];
    the zombie scan only logs.) *)
Definition check (ok : bool) (s : state) : state :=
  if ok then mkState 0 true (maxConsecutiveFailures s) (unhealthy_events s)
  else recordFailure s.

Definition run (probes : list bool) (s : state) : state :=
  fold_left (fun acc ok => check ok acc) probes s.

End Health.

(* ------------------------------------------------------------------ *)
(** ** Admission: [Bridge.poll] (lib/bridge.js) *)

Module Poll.

(** An element of [availableJobs]. *)
Record job := mkJob { uuid : string; type : string }.

(** [SUPPORTED_TYPES] and [isSupported] (lib/job-translator.js). *)
Definition SUPPORTED_TYPES : list string :=
  ["vod-web-video-transcoding"; "vod-hls-transcoding"; "vod-audio-merge-transcoding"].

Definition isSupported (jobType : string) : bool :=
  bool_decide (jobType ∈ SUPPORTED_TYPES).

Record state := mkState {
  isRunning : bool;
  healthMonitor : Health.state;
  activeJobs : gset string;   (* keys of [this.activeJobs] *)
  failedJobs : gset string    (* [this.failedJobs] *)
}.

Definition set_active (a : gset string) (s : state) : state :=
  mkState (isRunning s) (healthMonitor s) a (failedJobs s).

Section Poll.
(** [this.config.polling.maxConcurrentJobs] *)
Variable maxConcurrentJobs : nat.
(** Whether [await this.runnerClient.acceptJob(uuid)] resolves. *)
Variable acceptJob_ok : string -> bool.
(** What the other tasks of the event loop do to [this.activeJobs]
    while this call is suspended at its [k]-th [await] (jobs that
    finish run their [finally] block and delete their entry). *)
Variable settle : nat -> gset string -> gset string.

(** The [for (const job of availableJobs)] loop.  It returns the final
    active set and, per accepted job, its id and [activeJobs.size]
    right after [processJob] has run its first, synchronous statement
    [this.activeJobs.set(jobUUID, ...)]. *)
Fixpoint loop (k : nat) (jobs : list job) (active failed : gset string)
    : gset string * list (string * nat) :=
  match jobs with
  | [] => (active, [])
  | j :: rest =>
      if maxConcurrentJobs <=? size active then (active, [])      (* break *)
      else if negb (isSupported (type j)) then loop k rest active failed
      else if bool_decide (uuid j ∈ failed) then loop k rest active failed
      else
        let active1 := settle (S k) active in                   (* await acceptJob *)
        if acceptJob_ok (uuid j) then
          let active2 := {[uuid j]} ∪ active1 in                    (* processJob(...) *)
          let '(a, adm) := loop (S k) rest active2 failed in
          (a, (uuid j, size active2) :: adm)
        else (active1, [])              (* the rejection reaches poll's catch *)
  end.

(** [poll()]; [requestJob] is [None] when [requestJob()] rejects. *)
Definition poll (requestJob : option (list job)) (s : state)
    : state * list (string * nat) :=
  if negb (isRunning s) then (s, [])
  else if negb (Health.isHealthy (healthMonitor s)) then (s, [])
  else if maxConcurrentJobs <=? size (activeJobs s) then (s, [])
  else
    let active0 := settle 0 (activeJobs s) in                   (* await requestJob *)
    match requestJob with
    | None => (set_active active0 s, [])
    | Some jobs =>
        let '(a, adm) := loop 0 jobs active0 (failedJobs s) in (set_active a s, adm)
    end.
End Poll.

(** A job [poll] may admit: supported, not failed before, and accepted. *)
Definition eligible (acceptJob_ok : string -> bool) (failed : gset string) (j : job) : Prop :=
  isSupported (type j) = true /\ (uuid j ∉ failed) /\ acceptJob_ok (uuid j) = true.

End Poll.

(* ------------------------------------------------------------------ *)
(** ** One job's lifecycle: [Bridge.processJob] and [PoolManager.processJob] *)

Module Job.

(** The awaited or throwing operations of the two [processJob]s. *)
Inductive stage :=
| translate            (* translateJob(...) throws synchronously *)
| mkdtemp_dl           (* fs.promises.mkdtemp in Bridge.processJob *)
| download             (* downloadInput(...) *)
| mkdtemp_pool         (* fs.promises.mkdtemp in PoolManager.processJob *)
| createPoolDrive | pipeSource | metadata | segment | demux
| putSegments | putTracks | loadConfig
| notReady             (* pool.ready is false after loadConfig *)
| launch
| finalized            (* the 'finalized' wait hits its setTimeout *)
| pipeOutput
| poolDestroy          (* pool.destroy() *)
| prepare              (* prepareResult(...) *)
| readFile             (* fs.promises.readFile in postSuccess *)
| postSuccessNet | postErrorNet
| rmDir.               (* fs.promises.rm in cleanupTemp / cancelJob *)

Definition stage_msg (st : stage) : string :=
  match st with
  | finalized => "Job timed out after 600000ms"
  | notReady => "Pool not ready — no segments found in drive ptsn/bridge"
  | postSuccessNet => "Post success failed"
  | postErrorNet => "Post error failed"
  | download => "Download failed"
  | _ => "operation failed"
  end.

(** The state shared by the tasks of the event loop. *)
Record world := mkWorld {
  activeJobs : gset string;        (* Bridge.activeJobs keys *)
  failedJobs : gset string;        (* Bridge.failedJobs *)
  watched : gset string;           (* JobWatchdog.jobs keys *)
  jobTokens : gset string;         (* RunnerClient.jobTokens keys *)
  pmActive : gmap string string;   (* PoolManager.activeJobs: job -> tempDir *)
  pools : gset string;             (* jobs whose Pool object is not destroyed *)
  dirs : gset string;              (* temp directories present on disk *)
  sent : list (string * string);   (* REST calls issued: (endpoint, jobUUID) *)
  tempDir : option string;         (* the locals [tempDir] and [poolTempDir] *)
  poolTempDir : option string      (*   of Bridge.processJob *)
}.

Definition upd_active f w := mkWorld (f (activeJobs w)) (failedJobs w) (watched w) (jobTokens w) (pmActive w) (pools w) (dirs w) (sent w) (tempDir w) (poolTempDir w).
Definition upd_failed f w := mkWorld (activeJobs w) (f (failedJobs w)) (watched w) (jobTokens w) (pmActive w) (pools w) (dirs w) (sent w) (tempDir w) (poolTempDir w).
Definition upd_watched f w := mkWorld (activeJobs w) (failedJobs w) (f (watched w)) (jobTokens w) (pmActive w) (pools w) (dirs w) (sent w) (tempDir w) (poolTempDir w).
Definition upd_tokens f w := mkWorld (activeJobs w) (failedJobs w) (watched w) (f (jobTokens w)) (pmActive w) (pools w) (dirs w) (sent w) (tempDir w) (poolTempDir w).
Definition upd_pmActive f w := mkWorld (activeJobs w) (failedJobs w) (watched w) (jobTokens w) (f (pmActive w)) (pools w) (dirs w) (sent w) (tempDir w) (poolTempDir w).
Definition upd_pools f w := mkWorld (activeJobs w) (failedJobs w) (watched w) (jobTokens w) (pmActive w) (f (pools w)) (dirs w) (sent w) (tempDir w) (poolTempDir w).
Definition upd_dirs f w := mkWorld (activeJobs w) (failedJobs w) (watched w) (jobTokens w) (pmActive w) (pools w) (f (dirs w)) (sent w) (tempDir w) (poolTempDir w).
Definition upd_sent f w := mkWorld (activeJobs w) (failedJobs w) (watched w) (jobTokens w) (pmActive w) (pools w) (dirs w) (f (sent w)) (tempDir w) (poolTempDir w).
Definition set_tempDir d w := mkWorld (activeJobs w) (failedJobs w) (watched w) (jobTokens w) (pmActive w) (pools w) (dirs w) (sent w) d (poolTempDir w).
Definition set_poolTempDir d w := mkWorld (activeJobs w) (failedJobs w) (watched w) (jobTokens w) (pmActive w) (pools w) (dirs w) (sent w) (tempDir w) d.

Section Lifecycle.
(** Which operations reject in this run. *)
Variable fails : stage -> bool.
(** The names [fs.promises.mkdtemp] returns in the two [processJob]s. *)
Variables dl_name pool_name : string.

Definition step (st : stage) : M world unit :=
  snap;; if fails st then throw (stage_msg st) else mret tt.

Definition mkdtemp (st : stage) (name : string) : M world string :=
  step st;; modify (upd_dirs (fun d => {[name]} ∪ d));; mret name.

(** [cleanupTemp(tempDir)] (lib/result-assembler.js): never rejects. *)
Definition cleanupTemp (d : string) : M world unit :=
  swallow (step rmDir;; modify (upd_dirs (fun ds => ds ∖ {[d]}))).

(** [RunnerClient._jobToken(jobUUID)] *)
Definition jobToken (jobUUID : string) : M world unit :=
  w ← gets id;
  if bool_decide (jobUUID ∈ jobTokens w) then mret tt
  else throw ("No job token for job " +:+ jobUUID).

Definition send (endpoint jobUUID : string) : M world unit :=
  modify (upd_sent (fun l => l ++ [(endpoint, jobUUID)])).

(** [RunnerClient.postError(jobUUID, message)] *)
Definition postError (jobUUID : string) : M world unit :=
  jobToken jobUUID;; send "error" jobUUID;; step postErrorNet;;
  modify (upd_tokens (fun t => t ∖ {[jobUUID]})).

(** [RunnerClient.postSuccess(jobUUID, outputFilePath)] *)
Definition postSuccess (jobUUID : string) : M world unit :=
  jobToken jobUUID;; step readFile;; send "success" jobUUID;; step postSuccessNet;;
  modify (upd_tokens (fun t => t ∖ {[jobUUID]})).

(** The [onProgress] callback of Bridge.processJob: [watchdog.kick] (the
    set of watched ids is unchanged) and a fire-and-forget [updateJob]
    whose synchronous part checks the token and issues the request. *)
Definition onProgress (jobUUID : string) : M world unit :=
  swallow (jobToken jobUUID;; send "update" jobUUID).

Definition destroyPool (jobKey : string) : M world unit :=
  step poolDestroy;; modify (upd_pools (fun p => p ∖ {[jobKey]})).

(** [PoolManager.processJob(workflow, onProgress)]; returns
    [{ outputPath, tempDir }]. *)
Definition pm_processJob (jobKey : string) : M world (string * string) :=
  td ← mkdtemp mkdtemp_pool pool_name;
  try_finally
    (try_catch
      (onProgress jobKey;;
       modify (upd_pools (fun p => {[jobKey]} ∪ p));;            (* new Pool(...) *)
       step createPoolDrive;; step pipeSource;; step metadata;;
       onProgress jobKey;; step segment;; onProgress jobKey;;
       step demux;; onProgress jobKey;;
       step putSegments;; step putTracks;; step loadConfig;;
       (if fails notReady then throw (stage_msg notReady) else mret tt);;
       step launch;;
       modify (upd_pmActive (fun m => <[jobKey := td]> m));;
       step finalized;; onProgress jobKey;;
       step pipeOutput;; onProgress jobKey;;
       destroyPool jobKey;;                                       (* pool = null *)
       mret (td +:+ "/output.mp4", td))
      (fun e => throw e))                          (* clearInterval; throw err *)
    (w ← gets id;
     (if bool_decide (jobKey ∈ pools w) then swallow (destroyPool jobKey) else mret tt);;
     modify (upd_pmActive (delete jobKey))).

(** [PoolManager.cancelJob(jobUUID)] *)
Definition cancelJob (jobUUID : string) : M world unit :=
  w ← gets id;
  match pmActive w !! jobUUID with
  | None => mret tt
  | Some td =>
      await (swallow (destroyPool jobUUID));;
      await (swallow (step rmDir;; modify (upd_dirs (fun ds => ds ∖ {[td]}))));;
      modify (upd_pmActive (delete jobUUID))
  end.

(** [Bridge.processJob(jobUUID, jobType, payload)]: the [try] block. *)
Definition processJob_try (jobUUID : string) : M world unit :=
  (if fails translate then throw "Unsupported job type" else mret tt);;
  d ← mkdtemp mkdtemp_dl dl_name;
  modify (set_tempDir (Some d));;
  step download;;
  modify (upd_watched (fun x => {[jobUUID]} ∪ x));;          (* watchdog.watch *)
  r ← await (pm_processJob jobUUID);
  modify (set_poolTempDir (Some r.2));;
  await (step prepare);;                                       (* prepareResult *)
  await (postSuccess jobUUID);;                                (* uploadResult *)
  modify (upd_watched (fun x => x ∖ {[jobUUID]})).             (* watchdog.clear *)

(** The [catch (err)] block. *)
Definition processJob_catch (jobUUID : string) (_ : string) : M world unit :=
  try_catch (await (postError jobUUID)) (fun _ => mret tt);;
  modify (upd_failed (fun f => {[jobUUID]} ∪ f));;
  modify (upd_watched (fun x => x ∖ {[jobUUID]}));;
  await (swallow (cancelJob jobUUID)).

(** The [finally] block. *)
Definition processJob_finally (jobUUID : string) : M world unit :=
  modify (upd_active (fun a => a ∖ {[jobUUID]}));;
  w ← gets id;
  (match tempDir w with Some d => await (cleanupTemp d) | None => mret tt end);;
  (match poolTempDir w with Some d => await (cleanupTemp d) | None => mret tt end).

Definition processJob (jobUUID : string) : M world unit :=
  modify (fun w => set_poolTempDir None (set_tempDir None
                     (upd_active (fun a => {[jobUUID]} ∪ a) w)));;
  try_finally
    (try_catch (processJob_try jobUUID) (processJob_catch jobUUID))
    (processJob_finally jobUUID).
End Lifecycle.

End Job.

(* ------------------------------------------------------------------ *)
(** ** [gracefulShutdown] (lib/health.js) and [PoolManager.destroy] *)

Module Shutdown.

(** The steps that ran, in order. *)
Inductive event :=
| EMonitorStop                 (* monitor.stop() *)
| EReport (jobUUID : string)   (* runnerClient.postError(uuid, 'Runner shutting down') *)
| ECancel (jobUUID : string)   (* poolManager.cancelJob(uuid), inside destroy *)
| ESwarmDestroy                (* this.swarm.destroy() *)
| EStoreClose                  (* store.close() *)
| EClearAll                    (* watchdog.clearAll() *)
| EUnregister.                 (* runnerClient.unregister() *)

Record world := mkWorld {
  pmActive : list string;      (* PoolManager.activeJobs keys, insertion order *)
  jobTokens : gset string;     (* RunnerClient.jobTokens keys *)
  log : list event
}.

Definition emit (e : event) : M world unit :=
  modify (fun w => mkWorld (pmActive w) (jobTokens w) (log w ++ [e])).

(** The awaited external calls of the protocol that may reject. *)
Inductive call := postErrorNet (jobUUID : string) | swarmDestroy | storeClose | unregisterNet.

Section Protocol.
Variable fails : call -> bool.

Definition ext (c : call) : M world unit :=
  snap;; if fails c then throw "request failed" else mret tt.

(** [runnerClient.postError(uuid, ...)] (token present, checked above). *)
Definition postError (jobUUID : string) : M world unit :=
  emit (EReport jobUUID);; ext (postErrorNet jobUUID);;
  modify (fun w => mkWorld (pmActive w) (jobTokens w ∖ {[jobUUID]}) (log w)).

(** [PoolManager.cancelJob(uuid)]: every step there is caught. *)
Definition cancelJob (jobUUID : string) : M world unit :=
  emit (ECancel jobUUID);; snap;;
  modify (fun w => mkWorld (filter (fun u => u <> jobUUID) (pmActive w)) (jobTokens w) (log w)).

Fixpoint forM_ (l : list string) (f : string -> M world unit) : M world unit :=
  match l with [] => mret tt | x :: r => f x;; forM_ r f end.

(** [PoolManager.destroy()] after [start()] (the swarm exists). *)
Definition pm_destroy : M world unit :=
  w ← gets id;
  forM_ (pmActive w) (fun u => await (cancelJob u));;
  emit ESwarmDestroy;; ext swarmDestroy;;
  emit EStoreClose;; ext storeClose.

(** [gracefulShutdown(runnerClient, poolManager, watchdog, monitor)]; the
    hard 30 s [setTimeout] is armed first and cleared in [finally].  Only
    the shutdown task runs: no other task (such as an in-flight
    [processJob]) changes [activeJobs] or the job tokens at its awaits. *)
Definition gracefulShutdown : M world unit :=
  try_finally
    (emit EMonitorStop;;
     w ← gets id;
     forM_ (pmActive w) (fun u =>
       try_catch
         (w' ← gets id;
          if bool_decide (u ∈ jobTokens w') then await (postError u) else mret tt)
         (fun _ => mret tt));;
     await pm_destroy;;
     emit EClearAll;;
     try_catch (emit EUnregister;; await (ext unregisterNet)) (fun _ => mret tt))
    (mret tt).
End Protocol.

End Shutdown.

(* ------------------------------------------------------------------ *)
(** ** The pipeline's 'finalized' deadline (lib/pool-manager.js, lib/bridge.js) *)

Module PipelineTimeout.

(** [config.supernovao] *)
Module Supernovao.
Record t := mk { storage : option string; segmentTimeoutMs : option N }.
End Supernovao.

(** [config.timeouts], documented in the README as
    [timeouts.jobTimeoutMs] and [timeouts.segmentTimeoutMs]. *)
Module Timeouts.
Record t := mk { jobTimeoutMs : option N; segmentTimeoutMs : option N }.
End Timeouts.

Record config := mkConfig { supernovao : Supernovao.t; timeouts : Timeouts.t }.

(** JavaScript's [x || d] on a possibly undefined number. *)
Definition js_or (x : option N) (d : N) : N :=
  match x with Some n => if (n =? 0)%N then d else n | None => d end.

(** [new PoolManager(config.supernovao)] stores it as [this.config]; the
    deadline is [this.config.segmentTimeoutMs || 600000]. *)
Definition pool_timeout (pmConfig : Supernovao.t) : N :=
  js_or (Supernovao.segmentTimeoutMs pmConfig) 600000.

(** [new Bridge(config)] passes [config.supernovao] to the PoolManager. *)
Definition bridge_pool_timeout (cfg : config) : N := pool_timeout (supernovao cfg).

(** How [await new Promise(...)] settles: ['finalized'] arrives [fin]
    ms after the wait starts ([None]: never), the timer at [ms]. *)
Inductive outcome := Finalized (at_ms : N) | TimedOut (at_ms : N).

Definition await_finalized (ms : N) (fin : option N) : outcome :=
  match fin with
  | Some t => if (t <? ms)%N then Finalized t else TimedOut ms
  | None => TimedOut ms
  end.

Definition bridge_wait (cfg : config) (fin : option N) : outcome :=
  await_finalized (bridge_pool_timeout cfg) fin.

End PipelineTimeout.

(* ------------------------------------------------------------------ *)
(** ** The [onProgress] values of a successful [PoolManager.processJob] *)

Module Progress.

(** JavaScript numbers are IEEE-754 binary64 doubles.  The ones met here
    are nonnegative; a double is a pair [(m, e)] standing for [m * 2^e],
    and [None] stands for [Infinity]. *)
Section Binary64.
Local Open Scope Q_scope.

(** Round-half-to-even of the nonnegative fraction [n / d] ([d > 0]). *)
Definition rne (n d : Z) : Z :=
  let k := (n / d)%Z in
  let r := (n mod d)%Z in
  if (2 * r <? d)%Z then k
  else if (d <? 2 * r)%Z then (k + 1)%Z
  else if Z.even k then k else (k + 1)%Z.

(** [floor (log2 x)] for [x > 0]. *)
Definition lg (x : Q) : Z :=
  let k := (Z.log2 (Qnum x) - Z.log2 (Zpos (Qden x)))%Z in
  if Qle_bool (2 ^ k) x then k else (k - 1)%Z.

(** Weight of the last of the 53 mantissa bits of [x] (subnormals below
    [2^-1022]), and the mantissa rounded to nearest, ties to even. *)
Definition expo (x : Q) : Z := Z.max (lg x - 52) (-1074).
Definition mant (x : Q) : Z :=
  let y := x * 2 ^ (- expo x) in rne (Qnum y) (Zpos (Qden y)).

(** The double nearest to a nonnegative rational [x]: the result of a
    floating-point operation whose exact value is [x]. *)
Definition fl (x : Q) : option (Z * Z) :=
  if Qeq_bool x 0 then Some (0%Z, 0%Z) else
  if Qle_bool (2 ^ 1024) (inject_Z (mant x) * 2 ^ expo x) then None
  else Some (mant x, expo x).

(** The value of a finite double. *)
Definition dval (d : Z * Z) : Q := inject_Z d.1 * 2 ^ d.2.

(** Order on results of [fl], [Infinity] on top. *)
Definition fle (a b : option (Z * Z)) : Prop :=
  match a, b with
  | _, None => True
  | None, Some _ => False
  | Some u, Some v => dval u <= dval v
  end.

End Binary64.

(** One tick of the 2 s [setInterval], with [done] the length of
    [pool.segmentsComplete] and [totalSegs > 0] the length of
    [pool.segments]:
    [const pct = 10 + Math.floor((done / totalSegs) * 75);
     onProgress(Math.min(pct, 85))].
    Both lengths are exact doubles; the quotient and the product are
    rounded to the nearest double.  [Math.floor] of a double is exact, and
    so is the sum [10 + floor] while it is below 2^53; above, the sum is
    rounded but stays above 85, as it does for [Infinity], and the cap
    gives 85. *)
Definition tick (totalSegs done : nat) : nat :=
  Z.to_nat
    (match fl (inject_Z (Z.of_nat done) / inject_Z (Z.of_nat totalSegs)) with
     | None => 85
     | Some q =>
         match fl (dval q * 75) with
         | None => 85
         | Some p => Z.min (10 + Qfloor (dval p)) 85
         end
     end).

(** The calls made on the success path: [onProgress(0)], [(2)], [(8)],
    [(10)], one call per tick ([pool.segmentsComplete.length] sampled in
    [samples], only when [totalSegs > 0]), then [(95)] and [(100)]. *)
Definition onProgress_calls (totalSegs : nat) (samples : list nat) : list nat :=
  [0; 2; 8; 10]
  ++ (if 0 <? totalSegs then map (tick totalSegs) samples else [])
  ++ [95; 100].

End Progress.

(* ------------------------------------------------------------------ *)
(** ** [prepareResult] and [probeFile] (lib/result-assembler.js) *)

Module ResultAssembler.

(** What [fs.promises.access(p, R_OK)] and [fs.promises.stat(p)] see. *)
Record file := mkFile { readable : bool; size : nat }.

Record metadata := mkMetadata { streams : option (list string) }.

(** The callback of [ffmpeg.ffprobe]: an error, or a (possibly null)
    metadata object. *)
Inductive probe_cb := ProbeErr (msg : string) | ProbeMeta (md : option metadata).

Record result := mkResult { videoFilePath : string; type : string }.

(** [probeFile(filePath)] *)
Definition probeFile (filePath : string) (cb : probe_cb) : string + metadata :=
  match cb with
  | ProbeErr m => inl ("ffprobe failed on " +:+ filePath +:+ ": " +:+ m)
  | ProbeMeta None => inl ("No media streams found in " +:+ filePath)
  | ProbeMeta (Some md) =>
      match streams md with
      | None | Some [] => inl ("No media streams found in " +:+ filePath)
      | Some _ => inr md
      end
  end.

(** [prepareResult(outputPath, workflow)]; [f] is the file at
    [outputPath] ([None] when missing). *)
Definition prepareResult (outputPath workflowType : string) (f : option file)
    (cb : probe_cb) : string + result :=
  match f with
  | Some fl =>
      if readable fl then
        if size fl =? 0 then inl ("Output file is empty: " +:+ outputPath)
        else match probeFile outputPath cb with
             | inl e => inl e
             | inr _ =>
                 if bool_decide (workflowType = "vod-hls") then inr (mkResult outputPath "hls")
                 else inr (mkResult outputPath "web-video")
             end
      else inl ("Output file missing: " +:+ outputPath)
  | None => inl ("Output file missing: " +:+ outputPath)
  end.

(** The streams the probe reports as decodable (none when ffprobe fails). *)
Definition decodable_streams (cb : probe_cb) : nat :=
  match cb with
  | ProbeMeta (Some md) => match streams md with Some l => length l | None => 0 end
  | _ => 0
  end.

End ResultAssembler.

(* ------------------------------------------------------------------ *)
(** ** Per-job tokens in [RunnerClient] (lib/runner-client.js) *)

Module RunnerClient.

Inductive method := updateJob | postSuccess | postError | abortJob.

Definition terminal (m : method) : bool :=
  match m with updateJob => false | _ => true end.

Record state := mkState {
  jobTokens : gmap string string;      (* this.jobTokens *)
  requests : list (method * string)    (* fetch calls issued *)
}.

(** [_jobToken(jobUUID)] *)
Definition jobToken (jobUUID : string) (s : state) : string + string :=
  match jobTokens s !! jobUUID with
  | Some t => if bool_decide (t = "") then inl ("No job token for job " +:+ jobUUID) else inr t
  | None => inl ("No job token for job " +:+ jobUUID)
  end.

(** [acceptJob(jobUUID)] after a successful response carrying [tok]. *)
Definition accept (jobUUID tok : string) (s : state) : state :=
  mkState (<[jobUUID := tok]> (jobTokens s)) (requests s).

(** The part of a call that runs before its [await fetch(...)] resolves:
    the token is read and the request is issued. *)
Definition start (m : method) (jobUUID : string) (s : state) : string + state :=
  match jobToken jobUUID s with
  | inl e => inl e
  | inr _ => inr (mkState (jobTokens s) (requests s ++ [(m, jobUUID)]))
  end.

(** The part after the response: on [res.ok], the terminal methods run
    [this.jobTokens.delete(jobUUID)]. *)
Definition finish (m : method) (jobUUID : string) (res_ok : bool) (s : state)
    : string + state :=
  if res_ok then
    inr (if terminal m then mkState (delete jobUUID (jobTokens s)) (requests s) else s)
  else inl "request failed".

(** A call awaited to completion before the next one starts; the error,
    if it rejects, and the state afterwards. *)
Definition call (m : method) (jobUUID : string) (res_ok : bool) (s : state)
    : option string * state :=
  match start m jobUUID s with
  | inl e => (Some e, s)
  | inr s1 =>
      match finish m jobUUID res_ok s1 with
      | inl e => (Some e, s1)
      | inr s2 => (None, s2)
      end
  end.

(** A sequence of awaited calls, each rejection caught by its caller;
    returns the calls that resolved, in order. *)
Fixpoint run_calls (cs : list (method * string * bool)) (s : state)
    : list (method * string) * state :=
  match cs with
  | [] => ([], s)
  | (m, u, ok) :: rest =>
      let '(err, s1) := call m u ok s in
      let '(done, s2) := run_calls rest s1 in
      (match err with None => (m, u) :: done | Some _ => done end, s2)
  end.

(** The resolved terminal reports for [jobUUID]. *)
Definition terminal_for (jobUUID : string) (done : list (method * string)) : nat :=
  length (filter (fun p => terminal p.1 = true /\ p.2 = jobUUID) done).

(** [path.basename(p)] (POSIX): the part after the last separator,
    trailing separators ignored. *)
Fixpoint dropSlashes (l : list Ascii.ascii) : list Ascii.ascii :=
  match l with
  | c :: r => if Ascii.eqb c "/"%char then dropSlashes r else l
  | [] => []
  end.

Fixpoint takeName (l : list Ascii.ascii) : list Ascii.ascii :=
  match l with
  | [] => []
  | c :: r => if Ascii.eqb c "/"%char then [] else c :: takeName r
  end.

Definition basename (p : string) : string :=
  String.string_of_list_ascii (rev (takeName (dropSlashes (rev (String.list_ascii_of_string p))))).

(** [s.endsWith(suffix)] *)
Definition endsWith (s suffix : string) : bool :=
  let a := String.list_ascii_of_string s in
  let b := String.list_ascii_of_string suffix in
  bool_decide (drop (length a - length b) a = b).

(** The file part of [postSuccess]'s form: [fileName] and the blob's
    [mime] type. *)
Definition upload_file (outputFilePath : string) : string * string :=
  let fileName := basename outputFilePath in
  (fileName, if endsWith fileName ".webm" then "video/webm" else "video/mp4").

End RunnerClient.

(* ------------------------------------------------------------------ *)
(** ** [translateJob] (lib/job-translator.js) *)

Module Translator.

Record Input := mkInput { videoFileUrl : option string; audioFileUrl : option string }.
Record Output := mkOutput { resolution : option nat; fps : option nat }.

(** [payload]; an absent or null [input] / [output] is [None]. *)
Record payload := mkPayload { input : option Input; output : option Output }.

(** The fields of [config] (that is [this.config.supernovao]) read here;
    an absent or empty string is falsy. *)
Record config := mkConfig { bitrate : option string; level : option string }.

Record workflow := mkWorkflow {
  type : option string;            (* TYPE_MAP[jobType] *)
  inputUrl : option string;
  w_resolution : option nat;
  w_fps : option nat;
  w_bitrate : string;
  w_level : string;
  outputFormat : option string     (* FORMAT_MAP[type] *)
}.

Definition TYPE_MAP : list (string * string) :=
  [("vod-web-video-transcoding", "vod-web");
   ("vod-hls-transcoding", "vod-hls");
   ("vod-audio-merge-transcoding", "audio-merge")].

Definition FORMAT_MAP : list (string * string) :=
  [("vod-web", "mp4"); ("vod-hls", "hls"); ("audio-merge", "mp4")].

(** A property read on one of the object literals above. *)
Fixpoint lookup_key (k : string) (l : list (string * string)) : option string :=
  match l with
  | [] => None
  | (k', v) :: r => if bool_decide (k = k') then Some v else lookup_key k r
  end.

(** [x || d] on a possibly absent string. *)
Definition js_str_or (x : option string) (d : string) : string :=
  match x with Some v => if bool_decide (v = "") then d else v | None => d end.

(** [translateJob(jobType, payload, config)]; [inl] is the thrown message.
    [isSupported] is the same [SUPPORTED_TYPES.has] as in [Poll]. *)
Definition translateJob (jobType : string) (p : payload) (c : config) : string + workflow :=
  if negb (Poll.isSupported jobType) then inl ("Unsupported job type: " +:+ jobType)
  else
    match input p with
    | None => inl ("payload.input missing for job type " +:+ jobType)
    | Some i =>
        match output p with
        | None => inl ("payload.output missing for job type " +:+ jobType)
        | Some o =>
            let ty := lookup_key jobType TYPE_MAP in
            let url := if bool_decide (jobType = "vod-audio-merge-transcoding")
                       then audioFileUrl i else videoFileUrl i in
            inr (mkWorkflow ty url (resolution o) (fps o)
                   (js_str_or (bitrate c) "200000") (js_str_or (level c) "5.1")
                   (match ty with Some t => lookup_key t FORMAT_MAP | None => None end))
        end
    end.

(** [workflow.type] as [prepareResult] compares it ([undefined] is not
    ['vod-hls']). *)
Definition type_str (w : workflow) : string := default "" (type w).

End Translator.

(* ------------------------------------------------------------------ *)
(** ** Concrete runs *)

Module JobInv.
Import Job.

(** Neither [activeJobs] nor [failedJobs] changes. *)
Definition frozen (s s' : world) : Prop :=
  activeJobs s' = activeJobs s /\ failedJobs s' = failedJobs s.

Definition keeps {A} (m : M world A) : Prop :=
  forall s, frozen s (m s).1.2 /\ Forall (frozen s) (m s).2.


(** The computation resolves from every state. *)
Definition nothrow {A} (m : M world A) : Prop := forall s, exists a, (m s).1.1 = Ok a.

(** [Q] holds afterwards when it held before, however [m] settles. *)
Definition pres {A} (Q : world -> Prop) (m : M world A) : Prop := forall s, Q s -> Q (m s).1.2.

(** [Q] holds afterwards whenever [m] resolves. *)
Definition est {A} (Q : world -> Prop) (m : M world A) : Prop :=
  forall s a s' t, m s = (Ok a, s', t) -> Q s'.

End JobInv.

Module TokenInv.
Import RunnerClient.

(** [_jobToken] fails for [u]: no token, or an empty one. *)
Definition no_token (u : string) (s : state) : Prop :=
  jobTokens s !! u = None \/ jobTokens s !! u = Some "".

End TokenInv.

Module Scenario.

(** A bridge holding the job token of the freshly accepted "job-a". *)
Definition accepted : Job.world :=
  Job.mkWorld ∅ ∅ ∅ {["job-a"]} ∅ ∅ ∅ [] None None.

(** Scenario B of the spec: the pipeline never reaches 'finalized'. *)
Definition never_finalized (st : Job.stage) : bool :=
  match st with Job.finalized => true | _ => false end.

Definition dl_dir : string := "/tmp/ptsn-job-a-XXXX".
Definition pool_dir : string := "/tmp/ptsn-YYYY".

Definition run (fails : Job.stage -> bool) :=
  Job.processJob fails dl_dir pool_dir "job-a" accepted.

(** Both sets contain the id. *)
Definition overlap (jobUUID : string) (w : Job.world) : bool :=
  bool_decide (jobUUID ∈ Job.activeJobs w) && bool_decide (jobUUID ∈ Job.failedJobs w).

(** The README's configuration layout: a 1 s segment timeout under
    [timeouts], nothing under [supernovao]. *)
Definition readme_config : PipelineTimeout.config :=
  PipelineTimeout.mkConfig
    (PipelineTimeout.Supernovao.mk (Some ".supernovao") None)
    (PipelineTimeout.Timeouts.mk (Some 3600000%N) (Some 1000%N)).

(** A running, healthy bridge with no job in flight. *)
Definition running : Poll.state := Poll.mkState true (Health.create 5) ∅ ∅.

(** [availableJobs] as returned by [requestJob()]. *)
Definition offered : list Poll.job :=
  [Poll.mkJob "job-a" "vod-hls-transcoding";
   Poll.mkJob "job-b" "live-rtmp-hls-transcoding";
   Poll.mkJob "job-c" "vod-web-video-transcoding";
   Poll.mkJob "job-d" "vod-web-video-transcoding"].

End Scenario.

(* ================================================================== *)
(** * Properties *)

(* ------------------------------------------------------------------ *)
(** ** JobWatchdog *)

Example watch_then_fire :
  Watchdog.fired (Watchdog.advance 1000 (Watchdog.watch "job-a" 1 (Watchdog.create 1000)))
  = [(1, "job-a")].
Proof. vm_compute. reflexivity. Qed.

Example kick_postpones :
  Watchdog.fired (Watchdog.advance 600 (Watchdog.kick "job-a"
    (Watchdog.advance 600 (Watchdog.watch "job-a" 1 (Watchdog.create 1000))))) = [].
Proof. vm_compute. reflexivity. Qed.

(** C1: calling [watch] twice on the same id leaves two live timers for
    it: the first timer is overwritten in [this.jobs] without
    [clearTimeout].  A later [clear] only cancels the second one, so the
    first still calls its [onTimeout] after the clear; without the clear,
    both callbacks fire for the same id. *)
Theorem watch_twice_stacks_timers :
  let s := Watchdog.watch "job-a" 2 (Watchdog.watch "job-a" 1 (Watchdog.create 1000)) in
  Watchdog.timers_for "job-a" s = 2
  /\ Watchdog.fired (Watchdog.advance 1000 s) = [(1, "job-a"); (2, "job-a")]
  /\ Watchdog.jobs (Watchdog.clear "job-a" s) = ∅
  /\ Watchdog.fired (Watchdog.advance 1000 (Watchdog.clear "job-a" s)) = [(1, "job-a")].
Proof. vm_compute. repeat split; reflexivity. Qed.

(* ------------------------------------------------------------------ *)
(** ** HealthMonitor *)

Lemma health_max_check ok s :
  Health.maxConsecutiveFailures (Health.check ok s) = Health.maxConsecutiveFailures s.
Proof.
  destruct ok; unfold Health.check, Health.recordFailure; simpl; [done|].
  destruct (_ <=? _); done.
Qed.

Lemma health_max_run ps s :
  Health.maxConsecutiveFailures (Health.run ps s) = Health.maxConsecutiveFailures s.
Proof.
  revert s; induction ps as [|ok ps IH]; intros s; simpl; [done|].
  rewrite IH. apply health_max_check.
Qed.

Lemma health_run_failures k s :
  Health.consecutiveFailures (Health.run (repeat false k) s) = Health.consecutiveFailures s + k
  /\ (k <> 0 -> Health.maxConsecutiveFailures s <= Health.consecutiveFailures s + k ->
      Health.healthy (Health.run (repeat false k) s) = false)
  /\ (Health.consecutiveFailures s + k < Health.maxConsecutiveFailures s ->
      Health.healthy (Health.run (repeat false k) s) = Health.healthy s).
Proof.
  revert s; induction k as [|k IH]; intros s; simpl; [split; [lia|split; [done|done]]|].
  destruct (IH (Health.check false s)) as (H1 & H2 & H3).
  rewrite health_max_check in H2, H3.
  unfold Health.check, Health.recordFailure in *; simpl in *.
  destruct (Health.maxConsecutiveFailures s <=? S (Health.consecutiveFailures s)) eqn:E;
    simpl in *; apply Nat.leb_le in E || apply Nat.leb_gt in E.
  - split; [lia|]. split; [|lia].
    intros _ _. destruct k as [|k]; [done|]. apply H2; lia.
  - split; [lia|]. split.
    + intros _ Hle. apply H2; [lia|lia].
    + intros Hlt. apply H3. lia.
Qed.

(** C5: for any state the monitor can reach: [maxConsecutiveFailures]
    failed probes in a row make it unhealthy; one successful probe resets
    the streak to 0 and makes it healthy (and one failure short of the
    threshold after that keeps it healthy); every failed probe whose
    streak is at or above the threshold emits 'unhealthy', below it none. *)
Theorem health_monitor_hysteresis (cfg : nat) (ps : list bool) :
  let s := Health.run ps (Health.create cfg) in
  let n := Health.maxConsecutiveFailures s in
  Health.isHealthy (Health.run (repeat false n) s) = false
  /\ Health.consecutiveFailures (Health.check true s) = 0
  /\ Health.isHealthy (Health.check true s) = true
  /\ Health.isHealthy (Health.run (repeat false (n - 1)) (Health.check true s)) = true
  /\ Health.unhealthy_events (Health.check false s)
     = Health.unhealthy_events s
       ++ (if n <=? S (Health.consecutiveFailures s)
           then [S (Health.consecutiveFailures s)] else []).
Proof.
  cbv zeta.
  set (s := Health.run ps (Health.create cfg)).
  assert (Hn : 1 <= Health.maxConsecutiveFailures s).
  { unfold s. rewrite health_max_run. unfold Health.create; simpl.
    destruct (cfg =? 0) eqn:E; [lia|]. apply Nat.eqb_neq in E. lia. }
  split; [|split; [done|split; [done|split]]].
  - destruct (health_run_failures (Health.maxConsecutiveFailures s) s) as (_ & H & _).
    unfold Health.isHealthy. apply H; lia.
  - destruct (health_run_failures (Health.maxConsecutiveFailures s - 1) (Health.check true s))
      as (_ & _ & H).
    unfold Health.isHealthy. rewrite H; [done|].
    rewrite health_max_check. simpl. lia.
  - unfold Health.check, Health.recordFailure; simpl.
    destruct (_ <=? _); simpl; [done|]. by rewrite app_nil_r.
Qed.

(* ------------------------------------------------------------------ *)
(** ** Admission control *)

Section Admission.
Variable maxConcurrentJobs : nat.
Variable acceptJob_ok : string -> bool.
Variable settle : nat -> gset string -> gset string.
Hypothesis settle_shrinks : forall k a, settle k a ⊆ a.

Lemma size_add_le (x : string) (a : gset string) : size ({[x]} ∪ a) <= S (size a).
Proof.
  rewrite size_union_alt, size_singleton.
  pose proof (subseteq_size (a ∖ {[x]}) a ltac:(set_solver)). lia.
Qed.

Lemma loop_admissions jobs : forall k active failed,
  let '(_, adm) := Poll.loop maxConcurrentJobs acceptJob_ok settle k jobs active failed in
  Forall (fun p => p.2 <= maxConcurrentJobs) adm
  /\ map fst adm `sublist_of` map Poll.uuid jobs
  /\ (adm <> [] -> size active < maxConcurrentJobs)
  /\ Forall (fun p => p.2 < maxConcurrentJobs) (removelast adm).
Proof.
  induction jobs as [|j rest IH]; intros k active failed; simpl.
  { repeat split; [constructor|constructor|done|constructor]. }
  destruct (maxConcurrentJobs <=? size active) eqn:Ecap.
  { repeat split; [constructor|apply sublist_nil_l|done|constructor]. }
  apply Nat.leb_gt in Ecap.
  destruct (negb (Poll.isSupported (Poll.type j))).
  { specialize (IH k active failed).
    destruct (Poll.loop _ _ _ _ rest active failed) as [a adm].
    destruct IH as (H1 & H2 & H3 & H4).
    repeat split; [done| by apply sublist_cons | intros; lia | done]. }
  destruct (bool_decide (Poll.uuid j ∈ failed)).
  { specialize (IH k active failed).
    destruct (Poll.loop _ _ _ _ rest active failed) as [a adm].
    destruct IH as (H1 & H2 & H3 & H4).
    repeat split; [done| by apply sublist_cons | intros; lia | done]. }
  destruct (acceptJob_ok (Poll.uuid j)).
  2:{ repeat split; [constructor|apply sublist_nil_l|done|constructor]. }
  set (active2 := {[Poll.uuid j]} ∪ settle (S k) active).
  assert (Hsz : size active2 <= maxConcurrentJobs).
  { pose proof (size_add_le (Poll.uuid j) (settle (S k) active)).
    pose proof (subseteq_size _ _ (settle_shrinks (S k) active)).
    unfold active2. lia. }
  specialize (IH (S k) active2 failed).
  destruct (Poll.loop _ _ _ _ rest active2 failed) as [a adm].
  destruct IH as (H1 & H2 & H3 & H4).
  split; [constructor; [exact Hsz|exact H1]|].
  split; [simpl; by apply sublist_skip|].
  split; [intros _; exact Ecap|].
  destruct adm as [|p adm]; simpl; [constructor|].
  constructor; [apply H3; done|exact H4].
Qed.

(** C2: [poll] does nothing when the bridge is not running, the health
    monitor reports unhealthy, or capacity is exhausted; otherwise every
    admission leaves [activeJobs.size <= maxConcurrentJobs], the accepted
    ids occur in the order of [availableJobs], and only the last
    admission of a call can reach the limit (admission stops there).
    Other tasks may only remove entries while the call is suspended. *)
Theorem poll_admission_bound (requestJob : option (list Poll.job)) (s : Poll.state) :
  let '(s', adm) := Poll.poll maxConcurrentJobs acceptJob_ok settle requestJob s in
  ((Poll.isRunning s = false \/ Health.isHealthy (Poll.healthMonitor s) = false
    \/ maxConcurrentJobs <= size (Poll.activeJobs s)) -> s' = s /\ adm = [])
  /\ Forall (fun p => p.2 <= maxConcurrentJobs) adm
  /\ map fst adm `sublist_of` map Poll.uuid (default [] requestJob)
  /\ Forall (fun p => p.2 < maxConcurrentJobs) (removelast adm).
Proof.
  unfold Poll.poll.
  destruct (Poll.isRunning s) eqn:Er; simpl.
  2:{ repeat split; [constructor|apply sublist_nil_l|constructor]. }
  destruct (Health.isHealthy (Poll.healthMonitor s)) eqn:Eh; simpl.
  2:{ repeat split; [constructor|apply sublist_nil_l|constructor]. }
  destruct (maxConcurrentJobs <=? size (Poll.activeJobs s)) eqn:Ec.
  { repeat split; [constructor|apply sublist_nil_l|constructor]. }
  apply Nat.leb_gt in Ec.
  destruct requestJob as [jobs|]; simpl.
  2:{ split; [intros [H|[H|H]]; [done|done|lia]|].
      repeat split; [constructor|apply sublist_nil_l|constructor]. }
  pose proof (loop_admissions jobs 0 (settle 0 (Poll.activeJobs s)) (Poll.failedJobs s)) as HL.
  destruct (Poll.loop _ _ _ _ jobs _ _) as [a adm].
  destruct HL as (H1 & H2 & _ & H4).
  split; [intros [H|[H|H]]; [done|done|lia]|].
  done.
Qed.
End Admission.

(* ------------------------------------------------------------------ *)
(** ** The job lifecycle *)

Example success_run_cleans_both :
  let '(r, w, _) := Scenario.run (fun _ => false) in
  r = Ok tt /\ Job.dirs w = ∅ /\ Job.activeJobs w = ∅ /\ Job.failedJobs w = ∅
  /\ Job.jobTokens w = ∅.
Proof. vm_compute. repeat split; reflexivity. Qed.

(** C3: when the pipeline times out (Scenario B), [Bridge.processJob]
    reports the error, marks the id failed, clears the watchdog entry and
    the pool object is destroyed, and it removes its own download
    directory; but the directory [PoolManager.processJob] created is left
    on disk: [poolTempDir] is only assigned after the pipeline resolves,
    and [cancelJob] finds no entry because the PoolManager's [finally]
    already deleted it. *)
Theorem timeout_leaks_pool_tempdir :
  let '(r, w, _) := Scenario.run Scenario.never_finalized in
  r = Ok tt
  /\ Job.failedJobs w = {["job-a"]}
  /\ Job.watched w = ∅
  /\ last (Job.sent w) = Some ("error", "job-a")
  /\ Job.pools w = ∅
  /\ Job.pmActive w = ∅
  /\ Job.dirs w = {[Scenario.pool_dir]}.
Proof. vm_compute. repeat split; reflexivity. Qed.

(** C4 (counterexample): in the same run, at the [await] of [cancelJob] in
    the [catch] block the id is already in [failedJobs] and still in
    [activeJobs]. *)
Lemma active_and_failed_overlap :
  let '(_, _, trace) := Scenario.run Scenario.never_finalized in
  existsb (Scenario.overlap "job-a") trace = true.
Proof. vm_compute. reflexivity. Qed.

Module JobFacts.
Import Job JobInv.

Lemma frozen_refl s : frozen s s.
Proof. split; reflexivity. Qed.

Lemma frozen_trans s1 s2 s3 : frozen s1 s2 -> frozen s2 s3 -> frozen s1 s3.
Proof. intros [H1 H2] [H3 H4]. split; congruence. Qed.

Lemma frozen_trace s1 s2 tr : frozen s1 s2 -> Forall (frozen s2) tr -> Forall (frozen s1) tr.
Proof. intros H HF. eapply Forall_impl; [exact HF|]. intros x. by apply frozen_trans. Qed.

Lemma run_bind {A B} (m : M world A) (k : A -> M world B) s :
  (m ≫= k) s =
  match m s with
  | (Ok a, s1, t1) => let '(r, s2, t2) := k a s1 in (r, s2, t1 ++ t2)
  | (Throw e, s1, t1) => (Throw e, s1, t1)
  end.
Proof. reflexivity. Qed.

Lemma run_bind_modify {A} f (k : unit -> M world A) s : (modify f ≫= k) s = k tt (f s).
Proof. cbv [mbind M_bind modify]. destruct (k tt (f s)) as [[r s2] t2]. reflexivity. Qed.

Lemma keeps_ret {A} (a : A) : keeps (mret a).
Proof. intros s. split; [apply frozen_refl|constructor]. Qed.

Lemma keeps_throw {A} e : keeps (throw (A := A) e).
Proof. intros s. split; [apply frozen_refl|constructor]. Qed.

Lemma keeps_snap : keeps snap.
Proof. intros s. split; [apply frozen_refl|repeat constructor]. Qed.

Lemma keeps_gets {A} (f : world -> A) : keeps (gets f).
Proof. intros s. split; [apply frozen_refl|constructor]. Qed.

Lemma keeps_modify f : (forall w, frozen w (f w)) -> keeps (modify f).
Proof. intros H s. split; [apply H|constructor]. Qed.

Lemma keeps_bind {A B} (m : M world A) (k : A -> M world B) :
  keeps m -> (forall a, keeps (k a)) -> keeps (m ≫= k).
Proof.
  intros Hm Hk s. rewrite run_bind.
  specialize (Hm s). destruct (m s) as [[[a|e] s1] t1]; simpl in *; [|exact Hm].
  specialize (Hk a s1). destruct (k a s1) as [[r2 s2] t2]; simpl in *.
  destruct Hm as [Hm1 Hm2], Hk as [Hk1 Hk2].
  split; [by eapply frozen_trans|].
  apply Forall_app; split; [done|]. by eapply frozen_trace.
Qed.

Lemma keeps_try_catch {A} (m : M world A) h :
  keeps m -> (forall e, keeps (h e)) -> keeps (try_catch m h).
Proof.
  intros Hm Hh s. unfold try_catch.
  specialize (Hm s). destruct (m s) as [[[a|e] s1] t1]; simpl in *; [exact Hm|].
  specialize (Hh e s1). destruct (h e s1) as [[r2 s2] t2]; simpl in *.
  destruct Hm as [Hm1 Hm2], Hh as [Hh1 Hh2].
  split; [by eapply frozen_trans|].
  apply Forall_app; split; [done|]. by eapply frozen_trace.
Qed.

Lemma keeps_try_finally {A} (m : M world A) f :
  keeps m -> keeps f -> keeps (try_finally m f).
Proof.
  intros Hm Hf s. unfold try_finally.
  specialize (Hm s). destruct (m s) as [[r1 s1] t1]; simpl in *.
  specialize (Hf s1). destruct (f s1) as [[r2 s2] t2]; simpl in *.
  destruct Hm as [Hm1 Hm2], Hf as [Hf1 Hf2].
  split; [by eapply frozen_trans|].
  apply Forall_app; split; [done|]. by eapply frozen_trace.
Qed.

Lemma keeps_swallow (m : M world unit) : keeps m -> keeps (swallow m).
Proof. intros H. apply keeps_try_catch; [exact H|intros; apply keeps_ret]. Qed.

Lemma keeps_await {A} (m : M world A) : keeps m -> keeps (await m).
Proof.
  intros H. apply keeps_bind; [exact H|]. intros a.
  apply keeps_bind; [apply keeps_snap|intros; apply keeps_ret].
Qed.

Lemma swallow_ok (m : M world unit) s : (swallow m s).1.1 = Ok tt.
Proof.
  unfold swallow, try_catch. destruct (m s) as [[[[]|e] s1] t1]; reflexivity.
Qed.

Ltac keeps_auto :=
  repeat match goal with
  | |- keeps (_ ≫= _) => apply keeps_bind; [|intros ?]
  | |- keeps (try_catch _ _) => apply keeps_try_catch; [|intros ?]
  | |- keeps (try_finally _ _) => apply keeps_try_finally
  | |- keeps (swallow _) => apply keeps_swallow
  | |- keeps (await _) => apply keeps_await
  | |- keeps (mret _) => apply keeps_ret
  | |- keeps (throw _) => apply keeps_throw
  | |- keeps snap => apply keeps_snap
  | |- keeps (gets _) => apply keeps_gets
  | |- keeps (modify _) => apply keeps_modify; intros ?; split; reflexivity
  | |- keeps (if ?b then _ else _) => destruct b
  | |- keeps (match ?x with _ => _ end) => destruct x
  | |- keeps (step _ _) => unfold step
  | |- keeps (mkdtemp _ _ _) => unfold mkdtemp
  | |- keeps (cleanupTemp _ _) => unfold cleanupTemp
  | |- keeps (jobToken _) => unfold jobToken
  | |- keeps (send _ _) => unfold send
  | |- keeps (postError _ _) => unfold postError
  | |- keeps (postSuccess _ _) => unfold postSuccess
  | |- keeps (onProgress _) => unfold onProgress
  | |- keeps (destroyPool _ _) => unfold destroyPool
  | |- keeps (pm_processJob _ _ _) => unfold pm_processJob
  | |- keeps (cancelJob _ _) => unfold cancelJob
  end.

Section Window.
Variable fails : stage -> bool.
Variables dl_name pool_name : string.

Lemma keeps_processJob_try jobUUID : keeps (processJob_try fails dl_name pool_name jobUUID).
Proof. unfold processJob_try. keeps_auto. Qed.

Lemma processJob_finally_spec jobUUID s :
  activeJobs (processJob_finally fails jobUUID s).1.2 = activeJobs s ∖ {[jobUUID]}
  /\ failedJobs (processJob_finally fails jobUUID s).1.2 = failedJobs s
  /\ Forall (fun x => activeJobs x = activeJobs s ∖ {[jobUUID]}
                      /\ failedJobs x = failedJobs s)
            (processJob_finally fails jobUUID s).2.
Proof.
  unfold processJob_finally. rewrite run_bind_modify.
  set (s1 := upd_active (fun a => a ∖ {[jobUUID]}) s).
  match goal with |- context [?m s1] =>
    assert (Hk : keeps m) by keeps_auto; destruct (Hk s1) as [[H1 H2] H3] end.
  split; [exact H1|]. split; [exact H2|]. exact H3.
Qed.

Lemma processJob_catch_spec jobUUID e s :
  activeJobs (processJob_catch fails jobUUID e s).1.2 = activeJobs s
  /\ failedJobs (processJob_catch fails jobUUID e s).1.2 = {[jobUUID]} ∪ failedJobs s
  /\ exists t1 tw, (processJob_catch fails jobUUID e s).2 = t1 ++ tw
     /\ Forall (frozen s) t1
     /\ tw <> []
     /\ Forall (fun x => activeJobs x = activeJobs s
                         /\ failedJobs x = {[jobUUID]} ∪ failedJobs s) tw.
Proof.
  unfold processJob_catch. rewrite run_bind.
  assert (Hk1 : keeps (try_catch (await (postError fails jobUUID)) (fun _ => mret tt)))
    by keeps_auto.
  pose proof (swallow_ok (await (postError fails jobUUID)) s) as Hok1.
  unfold swallow in Hok1.
  destruct (Hk1 s) as [[Ha1 Hf1] Ht1].
  destruct (try_catch _ _ s) as [[r1 s1] t1]; simpl in Hok1, Ha1, Hf1, Ht1; subst r1.
  rewrite !run_bind_modify.
  set (s3 := upd_watched _ (upd_failed _ s1)).
  unfold await. rewrite run_bind.
  assert (Hk2 : keeps (swallow (cancelJob fails jobUUID))) by keeps_auto.
  pose proof (swallow_ok (cancelJob fails jobUUID) s3) as Hok2.
  destruct (Hk2 s3) as [[Ha2 Hf2] Ht2].
  destruct (swallow _ s3) as [[r4 s4] t4]; simpl in Hok2, Ha2, Hf2, Ht2; subst r4.
  simpl.
  assert (Ha : activeJobs s4 = activeJobs s) by (rewrite Ha2; exact Ha1).
  assert (Hf : failedJobs s4 = {[jobUUID]} ∪ failedJobs s) by (rewrite Hf2; by rewrite Hf1).
  split; [exact Ha|]. split; [exact Hf|].
  exists t1, (t4 ++ [s4]). split; [reflexivity|]. split; [exact Ht1|].
  split; [by destruct t4|].
  apply Forall_app. split; [|by constructor].
  eapply Forall_impl; [exact Ht2|]. intros x [Hx1 Hx2].
  split; [rewrite Hx1; exact Ha1|rewrite Hx2; unfold s3; simpl; by rewrite Hf1].
Qed.
End Window.
End JobFacts.

(** C4 (amended): a run of [Bridge.processJob] for an id not yet failed
    splits into three phases.  Up to its [catch] block the id is not in
    [failedJobs]; in the failure path, from [failedJobs.add] to the
    [activeJobs.delete] that opens the [finally] block (across the awaited
    [cancelJob]), it is in both sets; from then on it is no longer active.
    The middle phase is non-empty exactly when the run marked the id
    failed, and after the run the id is not active. *)
Theorem processJob_overlap_window (fails : Job.stage -> bool) (dl_name pool_name jobUUID : string)
    (w : Job.world) (Hfresh : jobUUID ∉ Job.failedJobs w) :
  let r := Job.processJob fails dl_name pool_name jobUUID w in
  exists t_pre t_win t_post,
    r.2 = t_pre ++ t_win ++ t_post
    /\ Forall (fun x => jobUUID ∉ Job.failedJobs x) t_pre
    /\ Forall (fun x => jobUUID ∈ Job.activeJobs x /\ jobUUID ∈ Job.failedJobs x) t_win
    /\ Forall (fun x => jobUUID ∉ Job.activeJobs x) t_post
    /\ (jobUUID ∉ Job.activeJobs r.1.2)
    /\ ((jobUUID ∈ Job.failedJobs r.1.2) <-> (t_win <> [])).
Proof.
  cbv zeta. unfold Job.processJob. rewrite JobFacts.run_bind_modify.
  set (s1 := Job.set_poolTempDir None _).
  assert (Ha1 : jobUUID ∈ Job.activeJobs s1) by (simpl; set_solver).
  assert (Hf1 : Job.failedJobs s1 = Job.failedJobs w) by reflexivity.
  unfold try_finally, try_catch.
  pose proof (JobFacts.keeps_processJob_try fails dl_name pool_name jobUUID s1) as [[Hb1 Hb2] Hbt].
  destruct (Job.processJob_try _ _ _ _ s1) as [[[u|e] s2] t1]; cbn [fst snd] in Hb1, Hb2, Hbt.
  - pose proof (JobFacts.processJob_finally_spec fails jobUUID s2) as (Hz1 & Hz2 & Hzt).
    destruct (Job.processJob_finally _ _ s2) as [[r3 s3] t3]; cbn [fst snd] in Hz1, Hz2, Hzt |- *.
    exists t1, [], t3. split; [reflexivity|]. split.
    { eapply Forall_impl; [exact Hbt|]. intros x [_ Hx]. rewrite Hx, Hf1. exact Hfresh. }
    split; [constructor|]. split.
    { eapply Forall_impl; [exact Hzt|]. intros x [Hx _]. rewrite Hx. set_solver. }
    split; [rewrite Hz1; set_solver|].
    rewrite Hz2, Hb2, Hf1. split; [done|]. intros H; by destruct H.
  - pose proof (JobFacts.processJob_catch_spec fails jobUUID e s2) as (Hc1 & Hc2 & tc & tw & Htc & Hct & Hnw & Hcw).
    destruct (Job.processJob_catch _ _ _ s2) as [[r4 s4] t4]; cbn [fst snd] in Hc1, Hc2, Htc |- *.
    subst t4.
    pose proof (JobFacts.processJob_finally_spec fails jobUUID s4) as (Hz1 & Hz2 & Hzt).
    destruct (Job.processJob_finally _ _ s4) as [[r5 s5] t5]; cbn [fst snd] in Hz1, Hz2, Hzt |- *.
    exists (t1 ++ tc), tw, t5. split; [by rewrite !app_assoc|]. split.
    { apply Forall_app. split.
      - eapply Forall_impl; [exact Hbt|]. intros x [_ Hx]. rewrite Hx, Hf1. exact Hfresh.
      - eapply Forall_impl; [exact Hct|]. intros x [_ Hx]. rewrite Hx, Hb2, Hf1. exact Hfresh. }
    split.
    { eapply Forall_impl; [exact Hcw|]. intros x [Hx1 Hx2].
      rewrite Hx1, Hx2, Hb1. split; [exact Ha1|set_solver]. }
    split.
    { eapply Forall_impl; [exact Hzt|]. intros x [Hx _]. rewrite Hx. set_solver. }
    split; [rewrite Hz1; set_solver|].
    rewrite Hz2, Hc2. split; [intros _; exact Hnw|intros _; set_solver].
Qed.

(* ------------------------------------------------------------------ *)
(** ** Shutdown *)

Example shutdown_all_steps :
  let '(r, w, _) := Shutdown.gracefulShutdown (fun _ => false)
                      (Shutdown.mkWorld ["job-a"] {["job-a"]} []) in
  r = Ok tt
  /\ Shutdown.log w = [Shutdown.EMonitorStop; Shutdown.EReport "job-a"; Shutdown.ECancel "job-a";
                       Shutdown.ESwarmDestroy; Shutdown.EStoreClose; Shutdown.EClearAll;
                       Shutdown.EUnregister].
Proof. vm_compute. split; reflexivity. Qed.

(** A failed per-job report does not stop the protocol. *)
Example shutdown_report_failure_contained :
  let '(r, w, _) := Shutdown.gracefulShutdown
                      (fun c => match c with Shutdown.postErrorNet _ => true | _ => false end)
                      (Shutdown.mkWorld ["job-a"] {["job-a"]} []) in
  r = Ok tt /\ last (Shutdown.log w) = Some Shutdown.EUnregister.
Proof. vm_compute. split; reflexivity. Qed.

(** C9: when [poolManager.destroy()] rejects (here [swarm.destroy()]),
    the rejection is not caught: [watchdog.clearAll()] and [unregister()]
    never run and [gracefulShutdown] itself rejects. *)
Theorem shutdown_destroy_failure_aborts :
  let '(r, w, _) := Shutdown.gracefulShutdown
                      (fun c => match c with Shutdown.swarmDestroy => true | _ => false end)
                      (Shutdown.mkWorld ["job-a"] {["job-a"]} []) in
  r = Throw "request failed"
  /\ Shutdown.log w = [Shutdown.EMonitorStop; Shutdown.EReport "job-a";
                       Shutdown.ECancel "job-a"; Shutdown.ESwarmDestroy].
Proof. vm_compute. split; reflexivity. Qed.

(* ------------------------------------------------------------------ *)
(** ** The pipeline deadline *)

(** Whatever deadline the PoolManager is given, a 'finalized' that does not
    arrive before it gives a timeout rejection at that deadline. *)
Lemma pool_wait_times_out (pmConfig : PipelineTimeout.Supernovao.t) (fin : option N) :
  match fin with Some t => (PipelineTimeout.pool_timeout pmConfig <= t)%N | None => True end ->
  PipelineTimeout.await_finalized (PipelineTimeout.pool_timeout pmConfig) fin
  = PipelineTimeout.TimedOut (PipelineTimeout.pool_timeout pmConfig).
Proof.
  intros H. unfold PipelineTimeout.await_finalized.
  destruct fin as [t|]; [|reflexivity].
  destruct (t <? _)%N eqn:E; [apply N.ltb_lt in E; lia|reflexivity].
Qed.

(** C6: with the timeout configured where the README documents it
    ([timeouts.segmentTimeoutMs = 1000]), the bridge's pipeline wait uses
    [config.supernovao.segmentTimeoutMs || 600000] = 600000 ms: a
    'finalized' arriving after 5 s is accepted, and a pipeline that never
    finalizes is rejected only at 600 s. *)
Theorem configured_segment_timeout_ignored :
  PipelineTimeout.Timeouts.segmentTimeoutMs (PipelineTimeout.timeouts Scenario.readme_config) = Some 1000%N
  /\ PipelineTimeout.bridge_pool_timeout Scenario.readme_config = 600000%N
  /\ PipelineTimeout.bridge_wait Scenario.readme_config (Some 5000%N) = PipelineTimeout.Finalized 5000
  /\ PipelineTimeout.bridge_wait Scenario.readme_config None = PipelineTimeout.TimedOut 600000.
Proof. vm_compute. repeat split; reflexivity. Qed.

(* ------------------------------------------------------------------ *)
(** ** Progress *)

Lemma sorted_app_bound (l1 l2 : list nat) (b : nat) :
  Sorted le l1 -> Sorted le l2 -> Forall (fun x => x <= b) l1 -> Forall (fun y => b <= y) l2 ->
  Sorted le (l1 ++ l2).
Proof.
  intros H1. induction H1 as [|a l1 H1 IH Hhd]; simpl; intros H2 Hb1 Hb2; [done|].
  inversion Hb1 as [|? ? Ha Hl1]; subst.
  constructor; [by apply IH|].
  destruct l1 as [|c l1]; simpl.
  - destruct l2 as [|d l2]; constructor. inversion Hb2; subst. lia.
  - inversion Hhd; subst. by constructor.
Qed.

Lemma sorted_map_mono (f : nat -> nat) (l : list nat) :
  (forall x y, x <= y -> f x <= f y) -> Sorted le l -> Sorted le (map f l).
Proof.
  intros Hf H. induction H as [|a l H IH Hhd]; simpl; constructor; [done|].
  destruct l as [|c l]; simpl; constructor. inversion Hhd; subst. by apply Hf.
Qed.

Section Binary64Facts.
Local Open Scope Q_scope.

Lemma rne_bounds n d : (0 < d)%Z -> (n / d <= Progress.rne n d <= n / d + 1)%Z.
Proof.
  intros Hd. unfold Progress.rne.
  destruct (Z.ltb_spec (2 * (n mod d)) d); [lia|].
  destruct (Z.ltb_spec d (2 * (n mod d))); [lia|].
  destruct (Z.even (n / d)); lia.
Qed.

Lemma div_mono_frac n1 d1 n2 d2 : (0 < d1)%Z -> (0 < d2)%Z -> (n1 * d2 <= n2 * d1)%Z ->
  (n1 / d1 <= n2 / d2)%Z.
Proof.
  intros H1 H2 Hle.
  apply Z.div_le_lower_bound; [lia|].
  pose proof (Z.mul_div_le n1 d1 H1).
  assert (d1 * (d2 * (n1 / d1)) <= d1 * n2)%Z; [|nia].
  nia.
Qed.

Lemma rne_mono n1 d1 n2 d2 : (0 < d1)%Z -> (0 < d2)%Z -> (n1 * d2 <= n2 * d1)%Z ->
  (Progress.rne n1 d1 <= Progress.rne n2 d2)%Z.
Proof.
  intros H1 H2 Hle.
  pose proof (div_mono_frac n1 d1 n2 d2 H1 H2 Hle) as Hk.
  pose proof (rne_bounds n1 d1 H1). pose proof (rne_bounds n2 d2 H2).
  destruct (Z.eq_dec (n1 / d1) (n2 / d2)) as [Hq|Hq]; [|lia].
  pose proof (Z.div_mod n1 d1 ltac:(lia)). pose proof (Z.div_mod n2 d2 ltac:(lia)).
  pose proof (Z.mod_pos_bound n1 d1 H1). pose proof (Z.mod_pos_bound n2 d2 H2).
  unfold Progress.rne. rewrite <- Hq.
  remember (n1 / d1)%Z as k. remember (n1 mod d1)%Z as r1. remember (n2 mod d2)%Z as r2.
  assert (Hr : (r1 * d2 <= r2 * d1)%Z).
  { assert (n1 * d2 = d1 * k * d2 + r1 * d2)%Z by nia.
    assert (n2 * d1 = d2 * k * d1 + r2 * d1)%Z by nia. nia. }
  destruct (Z.ltb_spec (2 * r1) d1); destruct (Z.ltb_spec (2 * r2) d2);
  destruct (Z.ltb_spec d1 (2 * r1)); destruct (Z.ltb_spec d2 (2 * r2));
  destruct (Z.even k); nia.
Qed.

Lemma rne_lt_bound (y : Q) (N : Z) : y < inject_Z N ->
  (Progress.rne (Qnum y) (Zpos (Qden y)) <= N)%Z.
Proof.
  intros Hy. unfold Qlt in Hy. simpl in Hy.
  pose proof (rne_bounds (Qnum y) (Zpos (Qden y)) ltac:(lia)).
  assert (Qnum y / Zpos (Qden y) < N)%Z; [|lia].
  apply Z.div_lt_upper_bound; lia.
Qed.

Lemma rne_le_bound (y : Q) (N : Z) : inject_Z N <= y ->
  (N <= Progress.rne (Qnum y) (Zpos (Qden y)))%Z.
Proof.
  intros Hy. unfold Qle in Hy. simpl in Hy.
  pose proof (rne_bounds (Qnum y) (Zpos (Qden y)) ltac:(lia)).
  assert (N <= Qnum y / Zpos (Qden y))%Z; [|lia].
  apply Z.div_le_lower_bound; lia.
Qed.

Lemma rne_q_mono (y1 y2 : Q) : y1 <= y2 ->
  (Progress.rne (Qnum y1) (Zpos (Qden y1)) <= Progress.rne (Qnum y2) (Zpos (Qden y2)))%Z.
Proof. intros H. unfold Qle in H. apply rne_mono; lia. Qed.

Lemma pow2_pos (a : Z) : 0 < 2 ^ a.
Proof. apply Qpower_0_lt. reflexivity. Qed.

Lemma pow2_add (a b : Z) : 2 ^ (a + b) == 2 ^ a * 2 ^ b.
Proof. apply Qpower_plus. discriminate. Qed.

Lemma pow2_le (a b : Z) : (a <= b)%Z -> 2 ^ a <= 2 ^ b.
Proof. intros H. apply Qpower_le_compat_l; [exact H | discriminate]. Qed.

Lemma pow2_lt_inv (a b : Z) : 2 ^ a < 2 ^ b -> (a < b)%Z.
Proof. intros H. eapply Qpower_lt_compat_l_inv; [exact H | reflexivity]. Qed.

Lemma pow2_Z (a : Z) : (0 <= a)%Z -> inject_Z (2 ^ a) == 2 ^ a.
Proof. intros H. rewrite Zpower_Qpower by exact H. reflexivity. Qed.


Lemma inject_Z_le (a b : Z) : (a <= b)%Z -> inject_Z a <= inject_Z b.
Proof. rewrite Zle_Qle. exact id. Qed.

Lemma inject_Z_lt (a b : Z) : (a < b)%Z -> inject_Z a < inject_Z b.
Proof. rewrite Zlt_Qlt. exact id. Qed.

Lemma lg_spec (x : Q) : 0 < x -> 2 ^ Progress.lg x <= x /\ x < 2 ^ (Progress.lg x + 1).
Proof.
  destruct x as [p q]. intros Hx. unfold Qlt in Hx. cbn [Qnum Qden] in Hx.
  unfold Progress.lg. cbn [Qnum Qden].
  assert (Hp : (0 < p)%Z) by lia.
  set (a := Z.log2 p). set (b := Z.log2 (Zpos q)).
  destruct (Z.log2_spec p Hp) as [Pa Pa'].
  destruct (Z.log2_spec (Zpos q) ltac:(lia)) as [Qb Qb'].
  fold a in Pa, Pa'. fold b in Qb, Qb'.
  assert (Ha : (0 <= a)%Z) by apply Z.log2_nonneg.
  assert (Hb : (0 <= b)%Z) by apply Z.log2_nonneg.
  apply inject_Z_le in Pa. apply inject_Z_lt in Pa'.
  apply inject_Z_le in Qb. apply inject_Z_lt in Qb'.
  rewrite !pow2_Z in Pa, Pa', Qb, Qb' by lia.
  assert (HX : (p # q) * inject_Z (Zpos q) == inject_Z p).
  { rewrite Qmake_Qdiv. field. unfold inject_Z, Qeq. simpl. lia. }
  assert (Hlo : 2 ^ (a - b - 1) <= p # q).
  { assert (E : 2 ^ (a - b - 1) * 2 ^ (Z.succ b) == 2 ^ a).
    { rewrite <- pow2_add. replace (a - b - 1 + Z.succ b)%Z with a by lia. reflexivity. }
    pose proof (pow2_pos (a - b - 1)). pose proof (pow2_pos b). nra. }
  assert (Hhi : p # q < 2 ^ (a - b + 1)).
  { assert (E : 2 ^ (a - b + 1) * 2 ^ b == 2 ^ (Z.succ a)).
    { rewrite <- pow2_add. replace (a - b + 1 + b)%Z with (Z.succ a) by lia. reflexivity. }
    pose proof (pow2_pos (a - b + 1)). pose proof (pow2_pos b). nra. }
  destruct (Qle_bool (2 ^ (a - b)) (p # q)) eqn:E.
  - apply Qle_bool_iff in E. split; assumption.
  - split.
    + exact Hlo.
    + replace (a - b - 1 + 1)%Z with (a - b)%Z by lia.
      apply Qnot_le_lt. intros H. apply Qle_bool_iff in H. congruence.
Qed.

Lemma mant_upper (x : Q) : 0 < x -> (Progress.mant x <= 2 ^ 53)%Z.
Proof.
  intros Hx. destruct (lg_spec x Hx) as [_ Hhi].
  unfold Progress.mant. apply rne_lt_bound. rewrite pow2_Z by lia.
  unfold Progress.expo. set (l := Progress.lg x) in *. set (e := Z.max (l - 52) (-1074)).
  pose proof (pow2_pos (- e)).
  apply Qlt_le_trans with (2 ^ (l + 1) * 2 ^ (- e)).
  - apply Qmult_lt_compat_r; assumption.
  - rewrite <- pow2_add. apply pow2_le. lia.
Qed.

Lemma mant_lower (x : Q) : 0 < x -> (-1074 <= Progress.lg x - 52)%Z ->
  (2 ^ 52 <= Progress.mant x)%Z.
Proof.
  intros Hx Hl. destruct (lg_spec x Hx) as [Hlo _].
  unfold Progress.mant. apply rne_le_bound. rewrite pow2_Z by lia.
  unfold Progress.expo. set (l := Progress.lg x) in *.
  replace (Z.max (l - 52) (-1074)) with (l - 52)%Z by lia.
  pose proof (pow2_pos (- (l - 52))).
  apply Qle_trans with (2 ^ l * 2 ^ (- (l - 52))).
  - rewrite <- pow2_add. replace (l + - (l - 52))%Z with 52%Z by lia. apply Qle_refl.
  - apply Qmult_le_compat_r; [assumption | apply Qlt_le_weak; assumption].
Qed.

Lemma mant_nonneg (x : Q) : 0 <= x -> (0 <= Progress.mant x)%Z.
Proof.
  intros Hx. unfold Progress.mant. apply rne_le_bound.
  apply Qmult_le_0_compat; [exact Hx | apply Qlt_le_weak, pow2_pos].
Qed.

Lemma lg_mono (x1 x2 : Q) : 0 < x1 -> x1 <= x2 -> (Progress.lg x1 <= Progress.lg x2)%Z.
Proof.
  intros H1 H12.
  destruct (lg_spec x1 H1) as [A _].
  destruct (lg_spec x2 (Qlt_le_trans _ _ _ H1 H12)) as [_ B].
  assert (Progress.lg x1 < Progress.lg x2 + 1)%Z; [|lia].
  apply pow2_lt_inv. eapply Qle_lt_trans; [exact A|]. eapply Qle_lt_trans; eauto.
Qed.

Lemma value_mono (x1 x2 : Q) : 0 < x1 -> x1 <= x2 ->
  inject_Z (Progress.mant x1) * 2 ^ Progress.expo x1
  <= inject_Z (Progress.mant x2) * 2 ^ Progress.expo x2.
Proof.
  intros H1 H12. assert (H2 : 0 < x2) by (eapply Qlt_le_trans; eauto).
  pose proof (lg_mono x1 x2 H1 H12) as Hl.
  assert (He : (Progress.expo x1 <= Progress.expo x2)%Z) by (unfold Progress.expo; lia).
  destruct (Z.eq_dec (Progress.expo x1) (Progress.expo x2)) as [E|E].
  - rewrite <- E. apply Qmult_le_compat_r; [|apply Qlt_le_weak, pow2_pos].
    apply inject_Z_le. unfold Progress.mant. rewrite <- E. apply rne_q_mono.
    apply Qmult_le_compat_r; [exact H12 | apply Qlt_le_weak, pow2_pos].
  - assert (E2 : Progress.expo x2 = (Progress.lg x2 - 52)%Z) by (unfold Progress.expo in *; lia).
    pose proof (mant_upper x1 H1) as U.
    pose proof (mant_lower x2 H2 ltac:(unfold Progress.expo in *; lia)) as L.
    apply inject_Z_le in U. apply inject_Z_le in L. rewrite pow2_Z in U, L by lia.
    apply Qle_trans with (2 ^ 53 * 2 ^ Progress.expo x1).
    { apply Qmult_le_compat_r; [exact U | apply Qlt_le_weak, pow2_pos]. }
    apply Qle_trans with (2 ^ 52 * 2 ^ Progress.expo x2).
    2: { apply Qmult_le_compat_r; [exact L | apply Qlt_le_weak, pow2_pos]. }
    rewrite <- !pow2_add. apply pow2_le. lia.
Qed.

Lemma fl_nonneg (x : Q) d : 0 <= x -> Progress.fl x = Some d -> (0 <= d.1)%Z.
Proof.
  intros Hx. unfold Progress.fl.
  destruct (Qeq_bool x 0); [intros [= <-]; simpl; lia|].
  destruct (Qle_bool _ _); [discriminate|]. intros [= <-]. simpl. apply mant_nonneg, Hx.
Qed.

Lemma dval_nonneg d : (0 <= d.1)%Z -> 0 <= Progress.dval d.
Proof.
  intros H. unfold Progress.dval. apply Qmult_le_0_compat; [|apply Qlt_le_weak, pow2_pos].
  change 0 with (inject_Z 0). apply inject_Z_le. exact H.
Qed.

Lemma fl_mono (x1 x2 : Q) : 0 <= x1 -> x1 <= x2 -> Progress.fle (Progress.fl x1) (Progress.fl x2).
Proof.
  intros H1 H12. assert (H2 : 0 <= x2) by (eapply Qle_trans; eauto).
  destruct (Progress.fl x2) as [d2|] eqn:F2; [|destruct (Progress.fl x1); exact I].
  pose proof (dval_nonneg d2 (fl_nonneg x2 d2 H2 F2)) as N2.
  revert F2. unfold Progress.fl at 1 2.
  destruct (Qeq_bool x1 0) eqn:Z1.
  { intros _. simpl. unfold Progress.dval at 1. simpl. exact N2. }
  apply Qeq_bool_neq in Z1.
  assert (P1 : 0 < x1).
  { destruct (Qle_lt_or_eq _ _ H1) as [?|E]; [assumption|]. exfalso. apply Z1. symmetry. exact E. }
  destruct (Qeq_bool x2 0) eqn:Z2.
  { apply Qeq_bool_iff in Z2. exfalso. apply (Qlt_irrefl 0).
    eapply Qlt_le_trans; [exact P1|]. rewrite <- Z2. exact H12. }
  pose proof (value_mono x1 x2 P1 H12) as V.
  destruct (Qle_bool (2 ^ 1024) (inject_Z (Progress.mant x2) * 2 ^ Progress.expo x2)) eqn:O2;
    [discriminate|]. intros [= <-].
  destruct (Qle_bool (2 ^ 1024) (inject_Z (Progress.mant x1) * 2 ^ Progress.expo x1)) eqn:O1.
  - apply Qle_bool_iff in O1.
    assert (O : 2 ^ 1024 <= inject_Z (Progress.mant x2) * 2 ^ Progress.expo x2)
      by (eapply Qle_trans; eauto).
    apply Qle_bool_iff in O. congruence.
  - exact V.
Qed.

Lemma floor_nonneg (x : Q) : 0 <= x -> (0 <= Qfloor x)%Z.
Proof. intros H. apply (Qfloor_resp_le 0 x) in H. exact H. Qed.

Lemma fl_dval_nonneg (x : Q) d : 0 <= x -> Progress.fl x = Some d -> 0 <= Progress.dval d.
Proof. intros Hx Hd. apply dval_nonneg. eapply fl_nonneg; eauto. Qed.

Lemma stage_range (x : Q) : 0 <= x ->
  (10 <= match Progress.fl x with
         | None => 85
         | Some p => Z.min (10 + Qfloor (Progress.dval p)) 85
         end <= 85)%Z.
Proof.
  intros Hx. destruct (Progress.fl x) as [p|] eqn:F; [|lia].
  pose proof (floor_nonneg _ (fl_dval_nonneg x p Hx F)). lia.
Qed.

Lemma stage_mono (x1 x2 : Q) : 0 <= x1 -> x1 <= x2 ->
  (match Progress.fl x1 with
   | None => 85
   | Some p => Z.min (10 + Qfloor (Progress.dval p)) 85
   end
   <= match Progress.fl x2 with
      | None => 85
      | Some p => Z.min (10 + Qfloor (Progress.dval p)) 85
      end)%Z.
Proof.
  intros H1 H12. pose proof (fl_mono x1 x2 H1 H12) as M.
  destruct (Progress.fl x1) as [p1|] eqn:F1, (Progress.fl x2) as [p2|] eqn:F2;
    simpl in M; try contradiction; try lia.
  pose proof (Qfloor_resp_le _ _ M). lia.
Qed.

Lemma tick_input_nonneg (t x : nat) : 0 <= inject_Z (Z.of_nat x) / inject_Z (Z.of_nat t).
Proof.
  unfold Qdiv. apply Qmult_le_0_compat.
  - change 0 with (inject_Z 0). apply inject_Z_le. lia.
  - apply Qinv_le_0_compat. change 0 with (inject_Z 0). apply inject_Z_le. lia.
Qed.

Lemma tick_mono t x y : (x <= y)%nat -> (Progress.tick t x <= Progress.tick t y)%nat.
Proof.
  intros H. unfold Progress.tick.
  pose proof (tick_input_nonneg t x) as N1.
  assert (L : inject_Z (Z.of_nat x) / inject_Z (Z.of_nat t)
              <= inject_Z (Z.of_nat y) / inject_Z (Z.of_nat t)).
  { unfold Qdiv. apply Qmult_le_compat_r; [apply inject_Z_le; lia|].
    apply Qinv_le_0_compat. change 0 with (inject_Z 0). apply inject_Z_le. lia. }
  pose proof (fl_mono _ _ N1 L) as M.
  pose proof (tick_input_nonneg t y) as N2.
  destruct (Progress.fl (inject_Z (Z.of_nat x) / inject_Z (Z.of_nat t))) as [q1|] eqn:F1,
    (Progress.fl (inject_Z (Z.of_nat y) / inject_Z (Z.of_nat t))) as [q2|] eqn:F2;
    simpl in M; try contradiction.
  - pose proof (fl_dval_nonneg _ _ N1 F1) as D1.
    assert (D1' : 0 <= Progress.dval q1 * 75) by (apply Qmult_le_0_compat; [exact D1 | unfold Qle; simpl; lia]).
    pose proof (stage_mono (Progress.dval q1 * 75) (Progress.dval q2 * 75) D1'
      (Qmult_le_compat_r _ _ 75 M ltac:(unfold Qle; simpl; lia))). lia.
  - pose proof (fl_dval_nonneg _ _ N1 F1) as D1.
    assert (D1' : 0 <= Progress.dval q1 * 75) by (apply Qmult_le_0_compat; [exact D1 | unfold Qle; simpl; lia]).
    pose proof (stage_range _ D1'). lia.
  - lia.
Qed.

Lemma tick_range t x : (10 <= Progress.tick t x <= 85)%nat.
Proof.
  unfold Progress.tick.
  pose proof (tick_input_nonneg t x) as N1.
  destruct (Progress.fl (inject_Z (Z.of_nat x) / inject_Z (Z.of_nat t))) as [q1|] eqn:F1; [|lia].
  pose proof (fl_dval_nonneg _ _ N1 F1) as D1.
  assert (D1' : 0 <= Progress.dval q1 * 75) by (apply Qmult_le_0_compat; [exact D1 | unfold Qle; simpl; lia]).
  pose proof (stage_range _ D1'). lia.
Qed.

End Binary64Facts.

(** C7: if [pool.segmentsComplete.length] never decreases between ticks,
    the values given to [onProgress] on the success path are
    non-decreasing, start at 0 and end at 100; each tick value lies
    between 10 and 85. *)
Theorem progress_nondecreasing (totalSegs : nat) (samples : list nat)
    (Hgrow : Sorted le samples) :
  let p := Progress.onProgress_calls totalSegs samples in
  Sorted le p /\ head p = Some 0 /\ last p = Some 100
  /\ Forall (fun x => 10 <= x <= 85)
       (if 0 <? totalSegs then map (Progress.tick totalSegs) samples else []).
Proof.
  cbv zeta.
  set (ticks := if 0 <? totalSegs then map (Progress.tick totalSegs) samples else []).
  assert (Hr : Forall (fun x => 10 <= x <= 85) ticks).
  { unfold ticks. destruct (0 <? totalSegs); [|constructor].
    clear Hgrow. induction samples as [|x samples IH]; simpl; constructor;
      [apply tick_range|exact IH]. }
  assert (Hs : Sorted le ticks).
  { unfold ticks. destruct (0 <? totalSegs); [|constructor].
    apply sorted_map_mono; [apply tick_mono|exact Hgrow]. }
  unfold Progress.onProgress_calls. fold ticks.
  split; [|split; [reflexivity|split; [|exact Hr]]].
  - apply (sorted_app_bound _ _ 10).
    + repeat constructor; lia.
    + apply (sorted_app_bound _ _ 85); [exact Hs|repeat constructor; lia| |repeat constructor; lia].
      eapply Forall_impl; [exact Hr|]. intros x [_ H]; exact H.
    + repeat constructor; lia.
    + apply Forall_app. split; [|repeat constructor; lia].
      eapply Forall_impl; [exact Hr|]. intros x [H _]; exact H.
  - change [95; 100] with ([95] ++ [100]). rewrite !app_assoc. apply last_snoc.
Qed.

(* ------------------------------------------------------------------ *)
(** ** Result handoff *)

(** C8: [prepareResult] resolves exactly when the output file exists, is
    readable, is not empty and the probe reports at least one stream; the
    result then carries the output path and is 'hls' for the workflow type
    'vod-hls' and 'web-video' for every other type. *)
Theorem prepareResult_contract (outputPath workflowType : string)
    (f : option ResultAssembler.file) (cb : ResultAssembler.probe_cb) :
  match ResultAssembler.prepareResult outputPath workflowType f cb with
  | inl _ =>
      ~ (exists fl, f = Some fl /\ ResultAssembler.readable fl = true
                    /\ ResultAssembler.size fl <> 0 /\ ResultAssembler.decodable_streams cb <> 0)
  | inr r =>
      (exists fl, f = Some fl /\ ResultAssembler.readable fl = true
                  /\ ResultAssembler.size fl <> 0 /\ ResultAssembler.decodable_streams cb <> 0)
      /\ r = ResultAssembler.mkResult outputPath
               (if bool_decide (workflowType = "vod-hls") then "hls" else "web-video")
  end.
Proof.
  unfold ResultAssembler.prepareResult.
  destruct f as [[rd sz]|]; simpl; [|intros (fl & ? & _); discriminate].
  destruct rd; simpl; [|intros (fl & Hf & Hr & _); injection Hf as <-; discriminate].
  destruct (sz =? 0) eqn:Esz; simpl.
  { apply Nat.eqb_eq in Esz. intros (fl & Hf & _ & Hs & _). injection Hf as <-. simpl in Hs. lia. }
  apply Nat.eqb_neq in Esz.
  destruct cb as [m|[[[[|x l]|]]|]]; simpl;
    try (intros (fl & Hf & _ & _ & Hd); simpl in Hd; lia).
  destruct (bool_decide (workflowType = "vod-hls")); (split; [|reflexivity]);
    exists (ResultAssembler.mkFile true sz); simpl; repeat split; lia.
Qed.

(* ------------------------------------------------------------------ *)
(** ** Per-job tokens *)

Module TokenFacts.
Import RunnerClient TokenInv.

Lemma jobToken_no_token u s : no_token u s -> jobToken u s = inl ("No job token for job " +:+ u).
Proof. unfold jobToken. intros [H|H]; rewrite H; [reflexivity|]. rewrite bool_decide_true; done. Qed.

Lemma start_no_token m u s : no_token u s -> start m u s = inl ("No job token for job " +:+ u).
Proof. intros H. unfold start. by rewrite jobToken_no_token. Qed.

Lemma call_keeps_no_token m v ok u s : no_token u s -> no_token u (call m v ok s).2.
Proof.
  intros H. unfold call, start.
  destruct (jobToken v s); simpl; [exact H|].
  unfold finish. destruct ok; simpl; [|exact H].
  destruct (terminal m); simpl; [|exact H].
  unfold no_token; simpl. destruct (decide (v = u)) as [->|Hne].
  - left. apply lookup_delete_eq.
  - rewrite lookup_delete_ne by done. exact H.
Qed.

Lemma call_terminal_ok m u ok s s' :
  terminal m = true -> call m u ok s = (None, s') -> no_token u s'.
Proof.
  intros Ht. unfold call, start.
  destruct (jobToken u s); [intros [=]|].
  unfold finish. destruct ok; [|intros [=]].
  rewrite Ht. intros [= <-]. left. simpl. apply lookup_delete_eq.
Qed.

Lemma terminal_for_cons u m v done :
  terminal_for u ((m, v) :: done)
  = (if bool_decide (terminal m = true /\ v = u) then 1 else 0) + terminal_for u done.
Proof.
  unfold terminal_for. rewrite filter_cons.
  destruct (decide _), (bool_decide _) eqn:E; simpl;
    try reflexivity; apply bool_decide_eq_true in E || apply bool_decide_eq_false in E;
    simpl in *; tauto.
Qed.

Lemma run_calls_no_token u cs : forall s, no_token u s -> terminal_for u (run_calls cs s).1 = 0.
Proof.
  induction cs as [|[[m v] ok] cs IH]; intros s H; simpl; [reflexivity|].
  destruct (call m v ok s) as [err s1] eqn:Ec.
  pose proof (call_keeps_no_token m v ok u s H) as H1. rewrite Ec in H1; simpl in H1.
  specialize (IH s1 H1). destruct (run_calls cs s1) as [done s2]; simpl in *.
  destruct err as [e|]; [exact IH|].
  rewrite terminal_for_cons, IH.
  destruct (bool_decide _) eqn:E; [|reflexivity].
  apply bool_decide_eq_true in E as [_ ->].
  unfold call in Ec. rewrite start_no_token in Ec by exact H. discriminate.
Qed.

Lemma run_calls_keeps_no_token u cs : forall s, no_token u s -> no_token u (run_calls cs s).2.
Proof.
  induction cs as [|[[m v] ok] cs IH]; intros s H; simpl; [exact H|].
  destruct (call m v ok s) as [err s1] eqn:Ec.
  pose proof (call_keeps_no_token m v ok u s H) as H1. rewrite Ec in H1; simpl in H1.
  specialize (IH s1 H1). destruct (run_calls cs s1) as [done s2]; simpl in *. exact IH.
Qed.

Lemma run_calls_resolved_other u cs : forall s, no_token u s ->
  Forall (fun p => p.2 <> u) (run_calls cs s).1.
Proof.
  induction cs as [|[[m v] ok] cs IH]; intros s H; simpl; [constructor|].
  destruct (call m v ok s) as [err s1] eqn:Ec.
  pose proof (call_keeps_no_token m v ok u s H) as H1. rewrite Ec in H1; simpl in H1.
  specialize (IH s1 H1). destruct (run_calls cs s1) as [done s2]; simpl in *.
  destruct err as [e|]; [exact IH|]. constructor; [|exact IH].
  simpl. intros ->. unfold call in Ec. rewrite start_no_token in Ec by exact H. discriminate.
Qed.
End TokenFacts.

(** C10 (amended): once a [postSuccess], [postError] or [abortJob] call
    for [u] has resolved, the job token of [u] is deleted.  In any later
    sequence of awaited calls (which contains no [acceptJob]), every call
    for [u], whatever calls ran in between, rejects with 'No job token for
    job <u>' before issuing a request and leaves the state unchanged, so no
    call for [u] resolves; and in any sequence of awaited calls at most one
    terminal report per id resolves. *)
Theorem terminal_report_once_sequential (u : string) (cs : list (RunnerClient.method * string * bool))
    (s : RunnerClient.state) :
  (forall m ok s1 s2 (later : list (RunnerClient.method * string * bool)),
     RunnerClient.terminal m = true ->
     RunnerClient.call m u ok s1 = (None, s2) ->
     (forall pre m' ok' rest, later = pre ++ (m', u, ok') :: rest ->
        RunnerClient.start m' u (RunnerClient.run_calls pre s2).2
          = inl ("No job token for job " +:+ u)
        /\ RunnerClient.call m' u ok' (RunnerClient.run_calls pre s2).2
          = (Some ("No job token for job " +:+ u), (RunnerClient.run_calls pre s2).2))
     /\ Forall (fun p => p.2 <> u) (RunnerClient.run_calls later s2).1)
  /\ RunnerClient.terminal_for u (RunnerClient.run_calls cs s).1 <= 1.
Proof.
  split.
  - intros m ok s1 s2 later Ht Hc.
    pose proof (TokenFacts.call_terminal_ok m u ok s1 s2 Ht Hc) as H0. split.
    + intros pre m' ok' rest _.
      pose proof (TokenFacts.run_calls_keeps_no_token u pre s2 H0) as Hn.
      split; [by apply TokenFacts.start_no_token|].
      unfold RunnerClient.call. by rewrite TokenFacts.start_no_token.
    + exact (TokenFacts.run_calls_resolved_other u later s2 H0).
  - revert s. induction cs as [|[[m v] ok] cs IH]; intros s; simpl; [unfold RunnerClient.terminal_for; simpl; lia|].
    destruct (RunnerClient.call m v ok s) as [err s1] eqn:Ec.
    specialize (IH s1). destruct (RunnerClient.run_calls cs s1) as [done s2] eqn:Er; simpl in *.
    destruct err as [e|]; [exact IH|].
    rewrite TokenFacts.terminal_for_cons.
    destruct (bool_decide _) eqn:E; [|simpl; exact IH].
    apply bool_decide_eq_true in E as [Ht ->].
    pose proof (TokenFacts.call_terminal_ok m u ok s s1 Ht Ec) as H1.
    pose proof (TokenFacts.run_calls_no_token u cs s1 H1) as H2. rewrite Er in H2. simpl in H2. lia.
Qed.

(** C10 (counterexample): two terminal reports for one accepted job that
    overlap (both read the token before either response arrives, e.g. the
    shutdown's postError and the job's own postSuccess) both issue their
    request, and both resolve when the server answers ok. *)
Lemma overlapping_terminal_reports :
  match RunnerClient.start RunnerClient.postError "job-a"
          (RunnerClient.accept "job-a" "jt-1" (RunnerClient.mkState ∅ [])) with
  | inr s1 =>
      match RunnerClient.start RunnerClient.postSuccess "job-a" s1 with
      | inr s2 =>
          match RunnerClient.finish RunnerClient.postError "job-a" true s2 with
          | inr s3 =>
              RunnerClient.finish RunnerClient.postSuccess "job-a" true s3
              = inr (RunnerClient.mkState ∅ [(RunnerClient.postError, "job-a");
                                              (RunnerClient.postSuccess, "job-a")])
          | inl _ => False
          end
      | inl _ => False
      end
  | inl _ => False
  end.
Proof. vm_compute. reflexivity. Qed.

(* ------------------------------------------------------------------ *)
(** ** Further properties of the job translator, the watchdog, the
    runner client and the pool manager *)

(** [isSupported] accepts exactly the three job types. *)
Lemma isSupported_cases t :
  Poll.isSupported t = true ->
  t = "vod-web-video-transcoding" \/ t = "vod-hls-transcoding" \/ t = "vod-audio-merge-transcoding".
Proof.
  unfold Poll.isSupported. rewrite bool_decide_eq_true. unfold Poll.SUPPORTED_TYPES.
  rewrite !elem_of_cons, elem_of_nil. tauto.
Qed.

(** Composing [translateJob] with [prepareResult]: when both succeed, the
    result points at the given output path and its type is 'hls' exactly
    for 'vod-hls-transcoding' jobs, 'web-video' for the other two. *)
Theorem translated_result_type (jobType : string) (p : Translator.payload) (c : Translator.config)
    (wf : Translator.workflow) (outputPath : string) (f : option ResultAssembler.file)
    (cb : ResultAssembler.probe_cb) (r : ResultAssembler.result)
    (Ht : Translator.translateJob jobType p c = inr wf)
    (Hr : ResultAssembler.prepareResult outputPath (Translator.type_str wf) f cb = inr r) :
  ResultAssembler.videoFilePath r = outputPath
  /\ ResultAssembler.type r = if bool_decide (jobType = "vod-hls-transcoding") then "hls" else "web-video".
Proof.
  unfold Translator.translateJob in Ht.
  destruct (Poll.isSupported jobType) eqn:Es; [|discriminate].
  destruct (Translator.input p) as [i|]; [|discriminate].
  destruct (Translator.output p) as [o|]; [|discriminate].
  simpl in Ht. injection Ht as Hw. subst wf.
  unfold ResultAssembler.prepareResult in Hr.
  destruct f as [fl|]; [|discriminate].
  destruct (ResultAssembler.readable fl); [|discriminate].
  destruct (ResultAssembler.size fl =? 0); [discriminate|].
  destruct (ResultAssembler.probeFile outputPath cb); [discriminate|].
  destruct (isSupported_cases jobType Es) as [ -> | [ -> | -> ]];
    vm_compute in Hr; injection Hr as <-; split; reflexivity.
Qed.

Lemma filter_comm {X} (P Q : X -> Prop) `{!∀ x, Decision (P x)} `{!∀ x, Decision (Q x)} (l : list X) :
  filter P (filter Q l) = filter Q (filter P l).
Proof.
  induction l as [|x l IH]; [reflexivity|].
  rewrite !(filter_cons _ x).
  destruct (decide (Q x)) as [Hq|Hq], (decide (P x)) as [Hp|Hp];
    rewrite ?filter_cons; repeat case_decide; try contradiction; congruence.
Qed.

Lemma fired_map_count u (l : list Watchdog.timer) :
  length (filter (fun p => p.2 = u) (map (fun tm => (Watchdog.t_cb tm, Watchdog.t_job tm)) l))
  = length (filter (fun tm => Watchdog.t_job tm = u) l).
Proof.
  induction l as [|x l IH]; [reflexivity|]. simpl. rewrite !filter_cons. simpl.
  destruct (decide (Watchdog.t_job x = u)); simpl; congruence.
Qed.

Lemma fired_for_advance u d s :
  Watchdog.fired_for u (Watchdog.advance d s)
  = Watchdog.fired_for u s + length (filter (fun tm => Watchdog.t_due tm <= Watchdog.now s + d) (Watchdog.timers_of u s)).
Proof.
  unfold Watchdog.fired_for, Watchdog.advance, Watchdog.timers_of. simpl.
  rewrite filter_app, length_app, fired_map_count, filter_comm. reflexivity.
Qed.

(** [elapsed]: 0 right after [watch]; [kick] changes no job's elapsed time
    (it keeps [startTime]); -1 after [clear]; for a watched job it grows
    by exactly the time the clock advances. *)
Theorem watchdog_elapsed (jobUUID : string) (cb d : nat) (s : Watchdog.state) :
  Watchdog.elapsed jobUUID (Watchdog.watch jobUUID cb s) = 0%Z
  /\ (forall v, Watchdog.elapsed v (Watchdog.kick jobUUID s) = Watchdog.elapsed v s)
  /\ Watchdog.elapsed jobUUID (Watchdog.clear jobUUID s) = (-1)%Z
  /\ (forall v e, Watchdog.jobs s !! v = Some e ->
        Watchdog.elapsed v (Watchdog.advance d s) = (Watchdog.elapsed v s + Z.of_nat d)%Z).
Proof.
  split; [unfold Watchdog.elapsed, Watchdog.watch; simpl; rewrite lookup_insert_eq; simpl; lia|].
  split.
  { intros v. unfold Watchdog.kick. destruct (Watchdog.jobs s !! jobUUID) as [e|] eqn:E; [|reflexivity].
    unfold Watchdog.elapsed; simpl.
    destruct (decide (v = jobUUID)) as [->|Hne].
    - rewrite lookup_insert_eq, E. reflexivity.
    - rewrite lookup_insert_ne by congruence. reflexivity. }
  split.
  { unfold Watchdog.clear. destruct (Watchdog.jobs s !! jobUUID) as [e|] eqn:E.
    - unfold Watchdog.elapsed; simpl. rewrite lookup_delete_eq. reflexivity.
    - unfold Watchdog.elapsed. rewrite E. reflexivity. }
  intros v e He. unfold Watchdog.elapsed, Watchdog.advance; simpl. rewrite He. lia.
Qed.

(** [watch] on a job with no live timer arms exactly one timer for it, due
    after Node's delay for [timeoutMs] ([timeoutMs] itself when it lies in
    [1 .. 2^31 - 1], else 1 ms), held by the entry and calling
    [onTimeout]. *)
Theorem watch_arms_one_timer (jobUUID : string) (cb : nat) (s : Watchdog.state)
    (Hnone : Watchdog.timers_of jobUUID s = []) :
  Watchdog.armed jobUUID (Watchdog.watch jobUUID cb s)
    (Watchdog.mkTimer (Watchdog.next_handle s) (Watchdog.now s + Watchdog.delay (Watchdog.timeoutMs s)) jobUUID cb).
Proof.
  exists (Watchdog.mkEntry (Watchdog.next_handle s) cb (Watchdog.now s)).
  unfold Watchdog.watch, Watchdog.timers_of in *; simpl.
  rewrite lookup_insert_eq. split; [reflexivity|].
  rewrite filter_app, Hnone, filter_cons, decide_True by reflexivity. simpl.
  repeat split.
Qed.

Lemma timers_of_clearTimeout u h s tm :
  Watchdog.timers_of u s = [tm] -> Watchdog.t_handle tm = h ->
  Watchdog.timers_of u (Watchdog.clearTimeout h s) = [].
Proof.
  unfold Watchdog.timers_of, Watchdog.clearTimeout; simpl. intros H Hh.
  rewrite filter_comm, H, filter_cons, decide_False by (intros Hc; apply Hc; exact Hh).
  reflexivity.
Qed.

(** [kick] on an armed job replaces its timer by a single fresh one, due
    after Node's delay for [timeoutMs] ([timeoutMs] itself when it lies in
    [1 .. 2^31 - 1], else 1 ms) and calling the same [onTimeout]. *)
Theorem kick_rearms (jobUUID : string) (s : Watchdog.state) (tm : Watchdog.timer)
    (Harmed : Watchdog.armed jobUUID s tm) :
  Watchdog.armed jobUUID (Watchdog.kick jobUUID s)
    (Watchdog.mkTimer (Watchdog.next_handle s) (Watchdog.now s + Watchdog.delay (Watchdog.timeoutMs s)) jobUUID (Watchdog.t_cb tm)).
Proof.
  destruct Harmed as (e & He & Ht & Hh & Hc).
  unfold Watchdog.kick. rewrite He.
  pose proof (timers_of_clearTimeout jobUUID (Watchdog.timer_of e) s tm Ht Hh) as H0.
  exists (Watchdog.mkEntry (Watchdog.next_handle s) (Watchdog.onTimeout e) (Watchdog.startTime e)).
  unfold Watchdog.timers_of in *; simpl in *.
  rewrite lookup_insert_eq. split; [reflexivity|].
  rewrite filter_app, H0, filter_cons, decide_True by reflexivity. simpl.
  rewrite Hc. repeat split.
Qed.

(** An armed job's timeout fires exactly once when the clock passes its
    due time, after which no timer is left for the job; before that the
    job stays armed and nothing fires. *)
Theorem armed_timer_fires_once (jobUUID : string) (d : nat) (s : Watchdog.state) (tm : Watchdog.timer)
    (Harmed : Watchdog.armed jobUUID s tm) :
  Watchdog.fired_for jobUUID (Watchdog.advance d s)
    = Watchdog.fired_for jobUUID s + (if Watchdog.t_due tm <=? Watchdog.now s + d then 1 else 0)
  /\ (Watchdog.now s + d < Watchdog.t_due tm -> Watchdog.armed jobUUID (Watchdog.advance d s) tm)
  /\ (Watchdog.t_due tm <= Watchdog.now s + d -> Watchdog.timers_of jobUUID (Watchdog.advance d s) = []).
Proof.
  destruct Harmed as (e & He & Ht & Hh & Hc).
  rewrite fired_for_advance, Ht, filter_cons, filter_nil.
  split.
  { destruct (decide (Watchdog.t_due tm <= Watchdog.now s + d)) as [Hle|Hgt].
    - apply Nat.leb_le in Hle as Hb. rewrite Hb. reflexivity.
    - assert (Hb : (Watchdog.t_due tm <=? Watchdog.now s + d) = false) by (apply Nat.leb_gt; lia).
      rewrite Hb. simpl. lia. }
  assert (Hadv : Watchdog.timers_of jobUUID (Watchdog.advance d s)
                 = filter (fun x => ~ Watchdog.t_due x <= Watchdog.now s + d) [tm]).
  { unfold Watchdog.timers_of, Watchdog.advance in *; simpl. rewrite filter_comm, Ht. reflexivity. }
  split.
  - intros Hlt. exists e. unfold Watchdog.advance at 1; simpl.
    split; [exact He|]. rewrite Hadv, filter_cons, decide_True by lia. done.
  - intros Hle. rewrite Hadv, filter_cons, decide_False by lia. reflexivity.
Qed.

(** [clear] on an armed job removes its entry and its only timer, so
    however far the clock advances its [onTimeout] is not called again. *)
Theorem clear_disarms (jobUUID : string) (s : Watchdog.state) (tm : Watchdog.timer)
    (Harmed : Watchdog.armed jobUUID s tm) :
  Watchdog.jobs (Watchdog.clear jobUUID s) !! jobUUID = None
  /\ Watchdog.timers_of jobUUID (Watchdog.clear jobUUID s) = []
  /\ forall d, Watchdog.fired_for jobUUID (Watchdog.advance d (Watchdog.clear jobUUID s)) = Watchdog.fired_for jobUUID s.
Proof.
  destruct Harmed as (e & He & Ht & Hh & Hc).
  pose proof (timers_of_clearTimeout jobUUID (Watchdog.timer_of e) s tm Ht Hh) as H0.
  unfold Watchdog.clear. rewrite He.
  assert (H1 : Watchdog.timers_of jobUUID
                 (Watchdog.set_jobs (delete jobUUID (Watchdog.jobs (Watchdog.clearTimeout (Watchdog.timer_of e) s)))
                    (Watchdog.clearTimeout (Watchdog.timer_of e) s)) = []) by exact H0.
  split; [simpl; apply lookup_delete_eq|].
  split; [exact H1|].
  intros d. rewrite fired_for_advance, H1, filter_nil. simpl length. rewrite Nat.add_0_r. reflexivity.
Qed.

Lemma clearAll_fold (s : Watchdog.state) :
  forall m : gmap string Watchdog.entry,
  let r := map_fold (fun _ e acc => Watchdog.clearTimeout (Watchdog.timer_of e) acc) s m in
  Watchdog.now r = Watchdog.now s /\ Watchdog.fired r = Watchdog.fired s /\ Watchdog.jobs r = Watchdog.jobs s
  /\ forall tm, tm ∈ Watchdog.pending r <->
       tm ∈ Watchdog.pending s /\ forall u e, m !! u = Some e -> Watchdog.t_handle tm <> Watchdog.timer_of e.
Proof.
  apply (map_fold_weak_ind (fun r m =>
    Watchdog.now r = Watchdog.now s /\ Watchdog.fired r = Watchdog.fired s /\ Watchdog.jobs r = Watchdog.jobs s
    /\ forall tm, tm ∈ Watchdog.pending r <->
         tm ∈ Watchdog.pending s /\ forall u e, m !! u = Some e -> Watchdog.t_handle tm <> Watchdog.timer_of e)).
  - split; [done|]. split; [done|]. split; [done|].
    intros tm. split; [intros H; split; [exact H|]; intros u e He; by rewrite lookup_empty in He|].
    intros [H _]; exact H.
  - intros i x m r Hi (H1 & H2 & H3 & H4).
    split; [exact H1|]. split; [exact H2|]. split; [exact H3|].
    intros tm. unfold Watchdog.clearTimeout; simpl. rewrite list_elem_of_filter, H4.
    split.
    + intros [Hne [Hp Hall]]. split; [exact Hp|]. intros u e He.
      destruct (decide (u = i)) as [->|Hui].
      * rewrite lookup_insert_eq in He. injection He as <-. exact Hne.
      * rewrite lookup_insert_ne in He by congruence. by apply (Hall u).
    + intros [Hp Hall]. split; [apply (Hall i x); apply lookup_insert_eq|].
      split; [exact Hp|]. intros u e He. apply (Hall u).
      destruct (decide (u = i)) as [->|Hui]; [congruence|].
      by rewrite lookup_insert_ne by congruence.
Qed.

(** [clearAll] empties [this.jobs], fires nothing, and removes from the
    queue exactly the timers held by some entry; every armed job is left
    without a timer. *)
Theorem clearAll_cancels (s : Watchdog.state) :
  Watchdog.jobs (Watchdog.clearAll s) = ∅
  /\ Watchdog.fired (Watchdog.clearAll s) = Watchdog.fired s
  /\ (forall tm, tm ∈ Watchdog.pending (Watchdog.clearAll s) <->
        tm ∈ Watchdog.pending s /\ forall u e, Watchdog.jobs s !! u = Some e -> Watchdog.t_handle tm <> Watchdog.timer_of e)
  /\ (forall u tm, Watchdog.armed u s tm -> Watchdog.timers_of u (Watchdog.clearAll s) = []).
Proof.
  destruct (clearAll_fold s (Watchdog.jobs s)) as (H1 & H2 & H3 & H4).
  unfold Watchdog.clearAll.
  split; [reflexivity|]. split; [exact H2|]. split; [exact H4|].
  intros u tm (e & He & Ht & Hh & Hc).
  apply elem_of_nil_inv. intros x Hx.
  unfold Watchdog.timers_of in Hx. simpl in Hx.
  apply list_elem_of_filter in Hx as [Hxu Hx]. apply H4 in Hx as [Hx Hall].
  assert (Hin : x ∈ Watchdog.timers_of u s) by (apply list_elem_of_filter; done).
  rewrite Ht in Hin. apply list_elem_of_singleton in Hin. subst x.
  exact (Hall u e He Hh).
Qed.

(** After [acceptJob] stores the token [tok], [_jobToken] returns it, or
    throws 'No job token' when [tok] is the empty string; other jobs'
    tokens are unaffected. *)
Theorem accept_then_jobToken (jobUUID tok : string) (s : RunnerClient.state) :
  (tok <> "" -> RunnerClient.jobToken jobUUID (RunnerClient.accept jobUUID tok s) = inr tok)
  /\ (tok = "" -> RunnerClient.jobToken jobUUID (RunnerClient.accept jobUUID tok s) = inl ("No job token for job " +:+ jobUUID))
  /\ (forall v, v <> jobUUID -> RunnerClient.jobToken v (RunnerClient.accept jobUUID tok s) = RunnerClient.jobToken v s).
Proof.
  unfold RunnerClient.jobToken, RunnerClient.accept; simpl. rewrite lookup_insert_eq.
  split; [intros H; by rewrite bool_decide_false|].
  split; [intros ->; reflexivity|].
  intros v Hv. rewrite lookup_insert_ne by congruence. reflexivity.
Qed.

(** A call whose response is not ok rejects with the request error and
    keeps the job token, so a later call for the same job can still
    read the token and resolve. *)
Theorem rejected_call_keeps_token (m m' : RunnerClient.method) (jobUUID t : string) (s : RunnerClient.state)
    (Htok : RunnerClient.jobToken jobUUID s = inr t) :
  (RunnerClient.call m jobUUID false s).1 = Some "request failed"
  /\ RunnerClient.jobTokens (RunnerClient.call m jobUUID false s).2 = RunnerClient.jobTokens s
  /\ (RunnerClient.call m' jobUUID true (RunnerClient.call m jobUUID false s).2).1 = None.
Proof.
  unfold RunnerClient.call, RunnerClient.start. rewrite Htok. simpl.
  split; [reflexivity|]. split; [reflexivity|].
  unfold RunnerClient.jobToken in *; simpl. rewrite Htok. reflexivity.
Qed.

(** A call never changes another job's token, and [updateJob] never
    changes any token, whatever its response. *)
Theorem call_token_isolation (m : RunnerClient.method) (jobUUID : string) (ok : bool) (s : RunnerClient.state) :
  (forall v, v <> jobUUID -> RunnerClient.jobTokens (RunnerClient.call m jobUUID ok s).2 !! v = RunnerClient.jobTokens s !! v)
  /\ RunnerClient.jobTokens (RunnerClient.call RunnerClient.updateJob jobUUID ok s).2 = RunnerClient.jobTokens s.
Proof.
  split.
  - intros v Hv. unfold RunnerClient.call, RunnerClient.start.
    destruct (RunnerClient.jobToken jobUUID s); [reflexivity|]. unfold RunnerClient.finish.
    destruct ok; [|reflexivity]. simpl.
    destruct (RunnerClient.terminal m); simpl; [|reflexivity].
    rewrite lookup_delete_ne by congruence. reflexivity.
  - unfold RunnerClient.call, RunnerClient.start.
    destruct (RunnerClient.jobToken jobUUID s); [reflexivity|]. unfold RunnerClient.finish.
    destruct ok; reflexivity.
Qed.

Lemma list_ascii_of_string_app (a b : string) :
  String.list_ascii_of_string (a +:+ b) = String.list_ascii_of_string a ++ String.list_ascii_of_string b.
Proof. induction a as [|c a IH]; simpl; [reflexivity|]. by rewrite IH. Qed.

Lemma takeName_no_slash (l r : list Ascii.ascii) :
  (forall c, c ∈ l -> c <> "/"%char) -> RunnerClient.takeName (l ++ "/"%char :: r) = l.
Proof.
  induction l as [|c l IH]; intros H; simpl.
  - reflexivity.
  - assert (Hc : c <> "/"%char) by (apply H; left).
    destruct (Ascii.eqb c "/"%char) eqn:E; [apply Ascii.eqb_eq in E; contradiction|].
    rewrite IH; [reflexivity|]. intros x Hx. apply H. by right.
Qed.

Lemma basename_join (d n : string) :
  n <> "" -> (forall c, c ∈ String.list_ascii_of_string n -> c <> "/"%char) ->
  RunnerClient.basename (d +:+ "/" +:+ n) = n.
Proof.
  intros Hn Hs. unfold RunnerClient.basename.
  rewrite !list_ascii_of_string_app. simpl.
  set (L := String.list_ascii_of_string n) in *.
  assert (HL : forall c, c ∈ rev L -> c <> "/"%char).
  { intros c Hc. apply Hs. apply list_elem_of_In in Hc. rewrite <- in_rev in Hc.
    by apply list_elem_of_In. }
  rewrite rev_app_distr. simpl. rewrite <- app_assoc. simpl.
  destruct (rev L) as [|c l] eqn:E.
  { exfalso. apply Hn. rewrite <- (String.string_of_list_ascii_of_string n). fold L.
    rewrite <- (rev_involutive L), E. reflexivity. }
  assert (Hc : c <> "/"%char) by (apply HL; left).
  simpl. destruct (Ascii.eqb c "/"%char) eqn:Ec; [apply Ascii.eqb_eq in Ec; contradiction|].
  change (c :: l ++ "/"%char :: rev (String.list_ascii_of_string d))
    with ((c :: l) ++ "/"%char :: rev (String.list_ascii_of_string d)).
  rewrite takeName_no_slash by exact HL.
  rewrite <- E, rev_involutive. apply String.string_of_list_ascii_of_string.
Qed.

(** [postSuccess] uploads [dir/name] under the file name [name] (a
    non-empty name without '/'), typed 'video/webm' exactly when the name
    ends in '.webm' and 'video/mp4' otherwise. *)
Theorem upload_file_name (d n : string) (Hn : n <> "")
    (Hs : forall c, c ∈ String.list_ascii_of_string n -> c <> "/"%char) :
  RunnerClient.upload_file (d +:+ "/" +:+ n)
  = (n, if RunnerClient.endsWith n ".webm" then "video/webm" else "video/mp4").
Proof. unfold RunnerClient.upload_file. rewrite (basename_join d n Hn Hs). reflexivity. Qed.

(** The output path the PoolManager returns, [tempDir + '/output.mp4'],
    is always uploaded as 'output.mp4' with type 'video/mp4'. *)
Theorem pool_output_uploaded_as_mp4 (tempDir : string) :
  RunnerClient.upload_file (tempDir +:+ "/output.mp4") = ("output.mp4", "video/mp4").
Proof.
  unfold RunnerClient.upload_file.
  change (tempDir +:+ "/output.mp4") with (tempDir +:+ "/" +:+ "output.mp4").
  rewrite (basename_join tempDir "output.mp4") by
    (done || (intros c Hc; vm_compute in Hc; repeat (apply elem_of_cons in Hc as [->|Hc]; [discriminate|]);
              by apply elem_of_nil in Hc)).
  reflexivity.
Qed.

(** [PoolManager.cancelJob] always resolves and drops the job from
    [activeJobs] (it touches neither Bridge's sets nor the REST calls); for
    a tracked job, a resolving [rm] deletes its temp directory and a
    resolving [destroy] destroys its pool.  A second cancel does nothing. *)
Theorem cancelJob_spec (fails : Job.stage -> bool) (jobUUID : string) (w : Job.world) :
  let r := Job.cancelJob fails jobUUID w in
  r.1.1 = Ok tt
  /\ Job.pmActive r.1.2 = delete jobUUID (Job.pmActive w)
  /\ Job.activeJobs r.1.2 = Job.activeJobs w /\ Job.failedJobs r.1.2 = Job.failedJobs w
  /\ Job.sent r.1.2 = Job.sent w
  /\ (forall td, Job.pmActive w !! jobUUID = Some td ->
        (fails Job.rmDir = false -> td ∉ Job.dirs r.1.2)
        /\ (fails Job.poolDestroy = false -> jobUUID ∉ Job.pools r.1.2))
  /\ Job.cancelJob fails jobUUID r.1.2 = (Ok tt, r.1.2, []).
Proof.
  cbv zeta. remember (Job.cancelJob fails jobUUID w) as r eqn:Hr.
  unfold Job.cancelJob in Hr.
  cbv [mbind M_bind mret M_ret gets modify await snap swallow try_catch Job.destroyPool Job.step id] in Hr.
  destruct (Job.pmActive w !! jobUUID) as [td|] eqn:E.
  2:{ subst r. simpl. rewrite delete_id by exact E.
      split; [reflexivity|]. split; [reflexivity|]. split; [reflexivity|]. split; [reflexivity|].
      split; [reflexivity|]. split; [intros td Htd; congruence|].
      unfold Job.cancelJob. cbv [mbind M_bind gets id]. rewrite E. reflexivity. }
  destruct (fails Job.poolDestroy) eqn:Ep, (fails Job.rmDir) eqn:Er; simpl in Hr; subst r; simpl;
    (split; [reflexivity|]); (split; [reflexivity|]); (split; [reflexivity|]);
    (split; [reflexivity|]); (split; [reflexivity|]);
    (split; [intros td' Htd'; injection Htd' as <-;
             split; intros; first [discriminate | set_solver]|]);
    unfold Job.cancelJob; cbv [mbind M_bind gets id]; simpl; rewrite lookup_delete_eq; reflexivity.
Qed.

Module JobSafety.
Import Job JobInv.

Lemma nothrow_ret {A} (a : A) : nothrow (mret (M := M world) a).
Proof. intros s. by exists a. Qed.
Lemma nothrow_snap : nothrow (snap (S := world)).
Proof. intros s. by exists tt. Qed.
Lemma nothrow_gets {A} (f : world -> A) : nothrow (gets f).
Proof. intros s. by exists (f s). Qed.
Lemma nothrow_modify f : nothrow (modify (S := world) f).
Proof. intros s. by exists tt. Qed.
Lemma nothrow_bind {A B} (m : M world A) (k : A -> M world B) :
  nothrow m -> (forall a, nothrow (k a)) -> nothrow (m ≫= k).
Proof.
  intros Hm Hk s. cbv [mbind M_bind]. destruct (Hm s) as [a Ha].
  destruct (m s) as [[r1 s1] t1]; simpl in Ha; subst r1.
  destruct (Hk a s1) as [b Hb]. destruct (k a s1) as [[r2 s2] t2]; simpl in *. by exists b.
Qed.
Lemma nothrow_try_catch {A} (m : M world A) h :
  (forall e, nothrow (h e)) -> nothrow (try_catch m h).
Proof.
  intros Hh s. unfold try_catch. destruct (m s) as [[[a|e] s1] t1]; [by exists a|].
  destruct (Hh e s1) as [b Hb]. destruct (h e s1) as [[r2 s2] t2]; simpl in *. by exists b.
Qed.
Lemma nothrow_try_finally {A} (m : M world A) f :
  nothrow m -> nothrow f -> nothrow (try_finally m f).
Proof.
  intros Hm Hf s. unfold try_finally. destruct (Hm s) as [a Ha].
  destruct (m s) as [[r1 s1] t1]; simpl in Ha; subst r1.
  destruct (Hf s1) as [b Hb]. destruct (f s1) as [[r2 s2] t2]; simpl in *; subst r2. by exists a.
Qed.
Lemma nothrow_swallow (m : M world unit) : nothrow (swallow m).
Proof. apply nothrow_try_catch. intros _. apply nothrow_ret. Qed.
Lemma nothrow_await {A} (m : M world A) : nothrow m -> nothrow (await m).
Proof.
  intros H. apply nothrow_bind; [exact H|]. intros a.
  apply nothrow_bind; [apply nothrow_snap|intros; apply nothrow_ret].
Qed.

Section Pred.
Variable Q : world -> Prop.

Lemma pres_ret {A} (a : A) : pres Q (mret a).
Proof. intros s H. exact H. Qed.
Lemma pres_throw {A} e : pres Q (throw (A := A) e).
Proof. intros s H. exact H. Qed.
Lemma pres_snap : pres Q snap.
Proof. intros s H. exact H. Qed.
Lemma pres_gets {A} (f : world -> A) : pres Q (gets f).
Proof. intros s H. exact H. Qed.
Lemma pres_modify f : (forall s, Q s -> Q (f s)) -> pres Q (modify f).
Proof. intros Hf s H. by apply Hf. Qed.
Lemma pres_bind {A B} (m : M world A) (k : A -> M world B) :
  pres Q m -> (forall a, pres Q (k a)) -> pres Q (m ≫= k).
Proof.
  intros Hm Hk s H. cbv [mbind M_bind]. specialize (Hm s H).
  destruct (m s) as [[[a|e] s1] t1]; simpl in *; [|exact Hm].
  specialize (Hk a s1 Hm). destruct (k a s1) as [[r2 s2] t2]; exact Hk.
Qed.
Lemma pres_try_catch {A} (m : M world A) h :
  pres Q m -> (forall e, pres Q (h e)) -> pres Q (try_catch m h).
Proof.
  intros Hm Hh s H. unfold try_catch. specialize (Hm s H).
  destruct (m s) as [[[a|e] s1] t1]; simpl in *; [exact Hm|].
  specialize (Hh e s1 Hm). destruct (h e s1) as [[r2 s2] t2]; exact Hh.
Qed.
Lemma pres_try_finally {A} (m : M world A) f :
  pres Q m -> pres Q f -> pres Q (try_finally m f).
Proof.
  intros Hm Hf s H. unfold try_finally. specialize (Hm s H).
  destruct (m s) as [[r1 s1] t1]; simpl in *.
  specialize (Hf s1 Hm). destruct (f s1) as [[r2 s2] t2]; exact Hf.
Qed.
Lemma pres_swallow (m : M world unit) : pres Q m -> pres Q (swallow m).
Proof. intros H. apply pres_try_catch; [exact H|intros; apply pres_ret]. Qed.
Lemma pres_await {A} (m : M world A) : pres Q m -> pres Q (await m).
Proof.
  intros H. apply pres_bind; [exact H|]. intros a.
  apply pres_bind; [apply pres_snap|intros; apply pres_ret].
Qed.

Lemma est_bind_l {A B} (m : M world A) (k : A -> M world B) :
  est Q m -> (forall a, pres Q (k a)) -> est Q (m ≫= k).
Proof.
  intros Hm Hk s b s' t. cbv [mbind M_bind].
  destruct (m s) as [[[a|e] s1] t1] eqn:E; [|discriminate].
  specialize (Hm s a s1 t1 E). specialize (Hk a s1 Hm).
  destruct (k a s1) as [[r2 s2] t2]. intros Heq. injection Heq as _ <- _. exact Hk.
Qed.
Lemma est_bind_r {A B} (m : M world A) (k : A -> M world B) :
  (forall a, est Q (k a)) -> est Q (m ≫= k).
Proof.
  intros Hk s b s' t. cbv [mbind M_bind].
  destruct (m s) as [[[a|e] s1] t1] eqn:E; [|discriminate].
  destruct (k a s1) as [[r2 s2] t2] eqn:E2. intros Heq. injection Heq as -> <- _.
  exact (Hk a s1 b s2 t2 E2).
Qed.
Lemma est_modify f : (forall s, Q (f s)) -> est Q (modify f).
Proof. intros Hf s a s' t Heq. injection Heq as _ <- _. apply Hf. Qed.
Lemma est_try_catch {A} (m : M world A) h :
  est Q m -> (forall e, est Q (h e)) -> est Q (try_catch m h).
Proof.
  intros Hm Hh s a s' t. unfold try_catch.
  destruct (m s) as [[[b|e] s1] t1] eqn:E.
  - intros Heq. injection Heq as <- <- _. exact (Hm s b s1 t1 E).
  - destruct (h e s1) as [[r2 s2] t2] eqn:E2. intros Heq. injection Heq as -> <- _.
    exact (Hh e s1 a s2 t2 E2).
Qed.
Lemma est_try_finally {A} (m : M world A) f :
  est Q m -> pres Q f -> est Q (try_finally m f).
Proof.
  intros Hm Hf s a s' t. unfold try_finally.
  destruct (m s) as [[r1 s1] t1] eqn:E. destruct (f s1) as [[r2 s2] t2] eqn:E2.
  intros Heq. injection Heq as Hr <- _.
  destruct r2; [|discriminate]. subst r1.
  specialize (Hm s a s1 t1 E). specialize (Hf s1 Hm). rewrite E2 in Hf. exact Hf.
Qed.
Lemma est_try_finally_f {A} (m : M world A) f : est Q f -> est Q (try_finally m f).
Proof.
  intros Hf s a s' t. unfold try_finally.
  destruct (m s) as [[r1 s1] t1] eqn:E. destruct (f s1) as [[r2 s2] t2] eqn:E2.
  intros Heq. injection Heq as Hr <- _.
  destruct r2 as [u|]; [|discriminate]. exact (Hf s1 u s2 t2 E2).
Qed.
Lemma est_swallow (m : M world unit) : est Q m -> nothrow m -> est Q (swallow m).
Proof.
  intros He Hn s a s' t. unfold swallow, try_catch.
  destruct (Hn s) as [b Hb]. destruct (m s) as [[r1 s1] t1] eqn:E; simpl in Hb; subst r1.
  intros Heq. injection Heq as _ <- _. exact (He s b s1 t1 E).
Qed.
Lemma est_await {A} (m : M world A) : est Q m -> est Q (await m).
Proof.
  intros H. apply est_bind_l; [exact H|]. intros a.
  apply pres_bind; [apply pres_snap|intros; apply pres_ret].
Qed.
End Pred.

Ltac pres_auto :=
  repeat match goal with
  | |- pres _ (_ ≫= _) => apply pres_bind; [|intros ?]
  | |- pres _ (try_catch _ _) => apply pres_try_catch; [|intros ?]
  | |- pres _ (try_finally _ _) => apply pres_try_finally
  | |- pres _ (swallow _) => apply pres_swallow
  | |- pres _ (await _) => apply pres_await
  | |- pres _ (mret _) => apply pres_ret
  | |- pres _ (throw _) => apply pres_throw
  | |- pres _ snap => apply pres_snap
  | |- pres _ (gets _) => apply pres_gets
  | |- pres _ (modify _) => apply pres_modify; intros ? ?; simpl; assumption
  | |- pres _ (if ?b then _ else _) => destruct b
  | |- pres _ (match ?x with _ => _ end) => destruct x
  | |- pres _ (step _ _) => unfold step
  | |- pres _ (cleanupTemp _ _) => unfold cleanupTemp
  | |- pres _ (jobToken _) => unfold jobToken
  | |- pres _ (send _ _) => unfold send
  | |- pres _ (postError _ _) => unfold postError
  | |- pres _ (postSuccess _ _) => unfold postSuccess
  | |- pres _ (destroyPool _ _) => unfold destroyPool
  | |- pres _ (cancelJob _ _) => unfold cancelJob
  end.

Ltac nothrow_auto :=
  repeat match goal with
  | |- nothrow (swallow _) => apply nothrow_swallow
  | |- nothrow (try_catch _ _) => apply nothrow_try_catch; intros ?
  | |- nothrow (_ ≫= _) => apply nothrow_bind; [|intros ?]
  | |- nothrow (await _) => apply nothrow_await
  | |- nothrow (mret _) => apply nothrow_ret
  | |- nothrow snap => apply nothrow_snap
  | |- nothrow (gets _) => apply nothrow_gets
  | |- nothrow (modify _) => apply nothrow_modify
  | |- nothrow (match ?x with _ => _ end) => destruct x
  | |- nothrow (cleanupTemp _ _) => unfold cleanupTemp
  | |- nothrow (cancelJob _ _) => unfold cancelJob
  end.

Section Settle.
Variable fails : stage -> bool.
Variables dl_name pool_name jobUUID : string.

Lemma cancelJob_run s :
  (cancelJob fails jobUUID s).1.1 = Ok tt
  /\ pmActive (cancelJob fails jobUUID s).1.2 = delete jobUUID (pmActive s).
Proof.
  unfold cancelJob.
  cbv [mbind M_bind mret M_ret gets modify await snap swallow try_catch destroyPool step id].
  destruct (pmActive s !! jobUUID) as [td|] eqn:E.
  - destruct (fails poolDestroy), (fails rmDir); simpl; split; reflexivity.
  - simpl. split; [reflexivity|]. by rewrite delete_id.
Qed.

Let Qw (s : world) : Prop := jobUUID ∉ watched s.
Let Qp (s : world) : Prop := pmActive s !! jobUUID = None.

Lemma nothrow_catch e : nothrow (processJob_catch fails jobUUID e).
Proof. unfold processJob_catch. nothrow_auto. Qed.

Lemma nothrow_finally : nothrow (processJob_finally fails jobUUID).
Proof. unfold processJob_finally. nothrow_auto. Qed.

Lemma est_cancelJob : est Qp (cancelJob fails jobUUID).
Proof.
  intros s a s' t E. destruct (cancelJob_run s) as [_ H]. rewrite E in H. simpl in H.
  unfold Qp. rewrite H. apply lookup_delete_eq.
Qed.

Lemma nothrow_cancelJob : nothrow (cancelJob fails jobUUID).
Proof. intros s. exists tt. apply cancelJob_run. Qed.

Lemma est_try_w : est Qw (processJob_try fails dl_name pool_name jobUUID).
Proof.
  unfold processJob_try.
  repeat (apply est_bind_r; intros ?).
  apply est_modify. intros s. unfold Qw; simpl. set_solver.
Qed.

Lemma est_catch_w e : est Qw (processJob_catch fails jobUUID e).
Proof.
  unfold processJob_catch.
  apply est_bind_r; intros ?. apply est_bind_r; intros ?.
  apply est_bind_l; [apply est_modify; intros s; unfold Qw; simpl; set_solver|].
  intros _. unfold Qw. pres_auto.
Qed.

Lemma est_try_p : est Qp (processJob_try fails dl_name pool_name jobUUID).
Proof.
  unfold processJob_try.
  do 5 (apply est_bind_r; intros ?).
  apply est_bind_l.
  - apply est_await. unfold pm_processJob. apply est_bind_r; intros ?.
    apply est_try_finally_f. apply est_bind_r; intros ?. apply est_bind_r; intros ?.
    apply est_modify. intros s. unfold Qp; simpl. apply lookup_delete_eq.
  - intros ?. unfold Qp. pres_auto.
Qed.

Lemma est_catch_p e : est Qp (processJob_catch fails jobUUID e).
Proof.
  unfold processJob_catch.
  do 3 (apply est_bind_r; intros ?).
  apply est_await. apply est_swallow; [apply est_cancelJob|apply nothrow_cancelJob].
Qed.

Lemma pres_finally (Q : world -> Prop)
    (HQ : forall s, Q s <-> Q (upd_active (fun a => a ∖ {[jobUUID]}) s))
    (Hd : forall s f, Q s -> Q (upd_dirs f s)) :
  pres Q (processJob_finally fails jobUUID).
Proof.
  unfold processJob_finally. apply pres_bind; [apply pres_modify; intros s; apply HQ|intros _].
  apply pres_bind; [apply pres_gets|intros w].
  apply pres_bind.
  - destruct (tempDir w) as [d|]; [|apply pres_ret]. apply pres_await. unfold cleanupTemp.
    apply pres_swallow. apply pres_bind; [unfold step; pres_auto|intros _].
    apply pres_modify. intros s0. apply Hd.
  - intros _. destruct (poolTempDir w) as [d|]; [|apply pres_ret]. apply pres_await. unfold cleanupTemp.
    apply pres_swallow. apply pres_bind; [unfold step; pres_auto|intros _].
    apply pres_modify. intros s0. apply Hd.
Qed.
End Settle.
End JobSafety.

(** [Bridge.processJob] resolves whichever operation rejects (the
    [.catch] of its caller never runs), and when it settles the job is no
    longer watched and no longer in the PoolManager's [activeJobs]. *)
Theorem processJob_settles (fails : Job.stage -> bool) (dl_name pool_name jobUUID : string)
    (w : Job.world) :
  let r := Job.processJob fails dl_name pool_name jobUUID w in
  r.1.1 = Ok tt
  /\ (jobUUID ∉ Job.watched r.1.2)
  /\ Job.pmActive r.1.2 !! jobUUID = None.
Proof.
  cbv zeta. unfold Job.processJob. rewrite JobFacts.run_bind_modify.
  set (w0 := Job.set_poolTempDir None _).
  set (X := try_finally _ _).
  assert (Hn : JobInv.nothrow X).
  { apply JobSafety.nothrow_try_finally.
    - apply JobSafety.nothrow_try_catch. apply JobSafety.nothrow_catch.
    - apply JobSafety.nothrow_finally. }
  assert (Hw : JobInv.est (fun s => jobUUID ∉ Job.watched s) X).
  { apply JobSafety.est_try_finally.
    - apply JobSafety.est_try_catch; [apply JobSafety.est_try_w|apply JobSafety.est_catch_w].
    - apply JobSafety.pres_finally; intros; simpl; tauto. }
  assert (Hp : JobInv.est (fun s => Job.pmActive s !! jobUUID = None) X).
  { apply JobSafety.est_try_finally.
    - apply JobSafety.est_try_catch; [apply JobSafety.est_try_p|apply JobSafety.est_catch_p].
    - apply JobSafety.pres_finally; intros; simpl; tauto. }
  destruct (Hn w0) as [a Ha].
  destruct (X w0) as [[r s'] t] eqn:E. simpl in Ha. subst r. destruct a.
  split; [reflexivity|]. split; [exact (Hw w0 tt s' t E)|exact (Hp w0 tt s' t E)].
Qed.

Lemma loop_admits_sublist M acc settle failed jobs : forall k active,
  map fst (Poll.loop M acc settle k jobs active failed).2
    `sublist_of` map Poll.uuid (filter (Poll.eligible acc failed) jobs).
Proof.
  induction jobs as [|j rest IH]; intros k active; simpl; [constructor|].
  rewrite filter_cons.
  destruct (M <=? size active); [simpl; apply sublist_nil_l|].
  case_decide as He.
  - destruct He as (Es & Hf & Ea). rewrite Es; simpl. rewrite bool_decide_false by exact Hf.
    rewrite Ea.
    destruct (Poll.loop M acc settle (S k) rest _ failed) as [a adm] eqn:El. simpl.
    apply sublist_skip. specialize (IH (S k) ({[Poll.uuid j]} ∪ settle (S k) active)).
    rewrite El in IH. exact IH.
  - destruct (Poll.isSupported (Poll.type j)) eqn:Es; simpl; [|apply IH].
    case_bool_decide as Hf; [apply IH|].
    destruct (acc (Poll.uuid j)) eqn:Ea; [exfalso; apply He; unfold Poll.eligible; tauto|].
    simpl. apply sublist_nil_l.
Qed.

(** The jobs [poll] admits are, in order, a subsequence of the offered
    jobs that are supported, not in [failedJobs], and accepted by the
    server; nothing is admitted when [requestJob] rejects. *)
Theorem poll_admits_eligible (maxConcurrentJobs : nat) (acceptJob_ok : string -> bool)
    (settle : nat -> gset string -> gset string) (requestJob : option (list Poll.job))
    (s : Poll.state) :
  let adm := (Poll.poll maxConcurrentJobs acceptJob_ok settle requestJob s).2 in
  match requestJob with
  | None => adm = []
  | Some jobs =>
      map fst adm `sublist_of`
        map Poll.uuid (filter (Poll.eligible acceptJob_ok (Poll.failedJobs s)) jobs)
  end.
Proof.
  cbv zeta. unfold Poll.poll.
  destruct (Poll.isRunning s), (Health.isHealthy (Poll.healthMonitor s)),
    (maxConcurrentJobs <=? size (Poll.activeJobs s)), requestJob as [jobs|]; simpl;
    try apply sublist_nil_l; try reflexivity.
  destruct (Poll.loop _ _ _ 0 jobs _ _) as [a adm] eqn:El. simpl.
  pose proof (loop_admits_sublist maxConcurrentJobs acceptJob_ok settle (Poll.failedJobs s) jobs 0
    (settle 0 (Poll.activeJobs s))) as H. rewrite El in H. exact H.
Qed.

(* ------------------------------------------------------------------ *)
(** ** Witnesses *)

Example poll_two_slots :
  (Poll.poll 2 (fun _ => true) (fun _ a => a) (Some Scenario.offered) Scenario.running).2
  = [("job-a", 1); ("job-c", 2)].
Proof. vm_compute. reflexivity. Qed.

Lemma poll_admission_bound_witness :
  let '(_, adm) := Poll.poll 2 (fun _ => true) (fun _ a => a) (Some Scenario.offered) Scenario.running in
  Forall (fun p => p.2 <= 2) adm /\ Forall (fun p => p.2 < 2) (removelast adm).
Proof.
  pose proof (poll_admission_bound 2 (fun _ => true) (fun _ a => a)
                ltac:(intros; reflexivity) (Some Scenario.offered) Scenario.running) as H.
  revert H.
  destruct (Poll.poll _ _ _ _ _) as [s' adm].
  intros (_ & H1 & _ & H2). split; [exact H1|exact H2].
Defined.

Lemma processJob_overlap_window_witness :
  let r := Scenario.run Scenario.never_finalized in
  exists t_pre t_win t_post,
    r.2 = t_pre ++ t_win ++ t_post
    /\ Forall (fun x => "job-a" ∉ Job.failedJobs x) t_pre
    /\ Forall (fun x => "job-a" ∈ Job.activeJobs x /\ "job-a" ∈ Job.failedJobs x) t_win
    /\ Forall (fun x => "job-a" ∉ Job.activeJobs x) t_post
    /\ ("job-a" ∉ Job.activeJobs r.1.2)
    /\ (("job-a" ∈ Job.failedJobs r.1.2) <-> (t_win <> [])).
Proof.
  assert (Hfresh : "job-a" ∉ Job.failedJobs Scenario.accepted)
    by (apply (bool_decide_unpack ("job-a" ∉ Job.failedJobs Scenario.accepted)); vm_compute; exact I).
  exact (processJob_overlap_window Scenario.never_finalized Scenario.dl_dir Scenario.pool_dir
           "job-a" Scenario.accepted Hfresh).
Defined.

Lemma progress_nondecreasing_witness :
  Progress.onProgress_calls 3 [0; 1; 3] = [0; 2; 8; 10; 10; 35; 85; 95; 100]
  /\ Sorted le (Progress.onProgress_calls 3 [0; 1; 3]).
Proof.
  split; [vm_compute; reflexivity|].
  exact (proj1 (progress_nondecreasing 3 [0; 1; 3] ltac:(repeat constructor))).
Defined.

Lemma translated_result_type_witness :
  let p := Translator.mkPayload
             (Some (Translator.mkInput (Some "https://pt/v.mp4") None))
             (Some (Translator.mkOutput (Some 1080) None)) in
  let c := Translator.mkConfig None None in
  let wf := Translator.mkWorkflow (Some "vod-hls") (Some "https://pt/v.mp4") (Some 1080) None
              "200000" "5.1" (Some "hls") in
  let f := Some (ResultAssembler.mkFile true 4096) in
  let cb := ResultAssembler.ProbeMeta (Some (ResultAssembler.mkMetadata (Some ["video"]))) in
  let r := ResultAssembler.mkResult "/tmp/ptsn-pool-x/output.mp4" "hls" in
  Translator.translateJob "vod-hls-transcoding" p c = inr wf
  /\ ResultAssembler.prepareResult "/tmp/ptsn-pool-x/output.mp4" (Translator.type_str wf) f cb = inr r
  /\ ResultAssembler.videoFilePath r = "/tmp/ptsn-pool-x/output.mp4"
  /\ ResultAssembler.type r
     = if bool_decide ("vod-hls-transcoding" = "vod-hls-transcoding") then "hls" else "web-video".
Proof.
  intros p c wf f cb r.
  assert (Ht : Translator.translateJob "vod-hls-transcoding" p c = inr wf) by reflexivity.
  assert (Hr : ResultAssembler.prepareResult "/tmp/ptsn-pool-x/output.mp4" (Translator.type_str wf) f cb
               = inr r) by (vm_compute; reflexivity).
  split; [exact Ht|]. split; [exact Hr|].
  exact (translated_result_type _ _ _ _ _ _ _ _ Ht Hr).
Defined.

Lemma watch_arms_one_timer_witness :
  Watchdog.timers_of "job-a" (Watchdog.create 1000) = []
  /\ Watchdog.armed "job-a" (Watchdog.watch "job-a" 7 (Watchdog.create 1000))
       (Watchdog.mkTimer 0 1000 "job-a" 7).
Proof.
  assert (H : Watchdog.timers_of "job-a" (Watchdog.create 1000) = []) by reflexivity.
  split; [exact H|].
  exact (watch_arms_one_timer "job-a" 7 (Watchdog.create 1000) H).
Defined.

(** The state right after [watch('job-a', 7)] on a fresh watchdog. *)
Lemma watched_job_a_armed :
  Watchdog.armed "job-a" (Watchdog.watch "job-a" 7 (Watchdog.create 1000))
    (Watchdog.mkTimer 0 1000 "job-a" 7).
Proof. exists (Watchdog.mkEntry 0 7 0). vm_compute. repeat split. Qed.

Lemma kick_rearms_witness :
  Watchdog.armed "job-a" (Watchdog.watch "job-a" 7 (Watchdog.create 1000))
    (Watchdog.mkTimer 0 1000 "job-a" 7)
  /\ Watchdog.armed "job-a" (Watchdog.kick "job-a" (Watchdog.watch "job-a" 7 (Watchdog.create 1000)))
       (Watchdog.mkTimer 1 1000 "job-a" 7).
Proof.
  split; [exact watched_job_a_armed|].
  exact (kick_rearms "job-a" _ _ watched_job_a_armed).
Defined.

Lemma armed_timer_fires_once_witness :
  Watchdog.armed "job-a" (Watchdog.watch "job-a" 7 (Watchdog.create 1000))
    (Watchdog.mkTimer 0 1000 "job-a" 7)
  /\ Watchdog.fired_for "job-a" (Watchdog.advance 1500 (Watchdog.watch "job-a" 7 (Watchdog.create 1000)))
     = Watchdog.fired_for "job-a" (Watchdog.watch "job-a" 7 (Watchdog.create 1000)) + 1.
Proof.
  split; [exact watched_job_a_armed|].
  exact (proj1 (armed_timer_fires_once "job-a" 1500 _ _ watched_job_a_armed)).
Defined.

Lemma clear_disarms_witness :
  Watchdog.armed "job-a" (Watchdog.watch "job-a" 7 (Watchdog.create 1000))
    (Watchdog.mkTimer 0 1000 "job-a" 7)
  /\ Watchdog.timers_of "job-a" (Watchdog.clear "job-a" (Watchdog.watch "job-a" 7 (Watchdog.create 1000)))
     = [].
Proof.
  split; [exact watched_job_a_armed|].
  exact (proj1 (proj2 (clear_disarms "job-a" _ _ watched_job_a_armed))).
Defined.

Lemma rejected_call_keeps_token_witness :
  let s := RunnerClient.accept "job-a" "tok-a" (RunnerClient.mkState ∅ []) in
  RunnerClient.jobToken "job-a" s = inr "tok-a"
  /\ (RunnerClient.call RunnerClient.postSuccess "job-a" false s).1 = Some "request failed"
  /\ (RunnerClient.call RunnerClient.postError "job-a" true
        (RunnerClient.call RunnerClient.postSuccess "job-a" false s).2).1 = None.
Proof.
  intros s.
  assert (H : RunnerClient.jobToken "job-a" s = inr "tok-a") by (vm_compute; reflexivity).
  split; [exact H|].
  destruct (rejected_call_keeps_token RunnerClient.postSuccess RunnerClient.postError "job-a" "tok-a" s H)
    as (H1 & _ & H3).
  split; [exact H1|exact H3].
Defined.

Lemma upload_file_name_witness :
  "clip.webm" <> ""
  /\ RunnerClient.upload_file ("/tmp/ptsn-dl-x" +:+ "/" +:+ "clip.webm") = ("clip.webm", "video/webm").
Proof.
  assert (Hn : "clip.webm" <> "") by discriminate.
  assert (Hs : forall c, c ∈ String.list_ascii_of_string "clip.webm" -> c <> "/"%char).
  { intros c Hc. vm_compute in Hc.
    repeat (apply elem_of_cons in Hc as [->|Hc]; [discriminate|]). by apply elem_of_nil in Hc. }
  split; [exact Hn|].
  exact (upload_file_name "/tmp/ptsn-dl-x" "clip.webm" Hn Hs).
Defined.

